(** * eslint-progress-bar: the runner (argument interpretation, batched
      execution, fallback) and the progress-bar adapter.

    The development embeds [runner.ts] and [progress.ts] shallowly:
    tokens are [string]s, [Set]s are [gset string], the rule-override
    object is a [gmap string RuleConfig], a JavaScript [number] that may
    be [NaN] is a [JsNum], exceptions are the [Throw] completion, and the
    calls into the outside world (the ESLint engine, globby, the progress
    widget, the child process, the standard streams) are recorded in a
    trace of [Event]s that the external collaborators may inspect when
    they answer. *)

From Stdlib Require Import ZArith Ascii String.
From stdpp Require Import base option list gmap strings pretty.
From Equations Require Import Equations.

Local Open Scope string_scope.
Local Open Scope list_scope.

(** ** JavaScript values and string primitives *)

Module JS.

(** A [number] that is either an integer or [NaN].  [parseInt] only ever
    produces one of the two (an integer beyond 2^53 is rounded by the
    engine; here it is kept exact). *)
Inductive JsNum : Type :=
| NaN : JsNum
| Int (z : Z) : JsNum.

(** A value read by [args[++i]]: past the end it is [undefined]. *)
Inductive Maybe (A : Type) : Type :=
| Undefined : Maybe A
| Defined (a : A) : Maybe A.
Global Arguments Undefined {A}.
Global Arguments Defined {A} a.

(** The outcome of a computation that may raise. *)
Inductive Completion (A : Type) : Type :=
| Normal (a : A) : Completion A
| Throw (msg : string) : Completion A.
Global Arguments Normal {A} a.
Global Arguments Throw {A} msg.

(** [w > t] on numbers: every comparison with [NaN] is false. *)
Definition gt (w : Z) (t : JsNum) : bool :=
  match t with NaN => false | Int z => (z <? w)%Z end.

(** [s.startsWith(p)] *)
Fixpoint startsWith (p s : string) : bool :=
  match p with
  | EmptyString => true
  | String a p' =>
      match s with
      | EmptyString => false
      | String b s' => if Ascii.eqb a b then startsWith p' s' else false
      end
  end.

(** [s.endsWith(p)] *)
Fixpoint endsWith (p s : string) : bool :=
  match s with
  | EmptyString => String.eqb p EmptyString
  | String _ s' => String.eqb p s || endsWith p s'
  end.

(** [s.includes(c)] for a one-character needle. *)
Fixpoint includes (c : ascii) (s : string) : bool :=
  match s with
  | EmptyString => false
  | String a s' => if Ascii.eqb a c then true else includes c s'
  end.

(** [s.split(c)] for a one-character separator; never empty. *)
Fixpoint split (c : ascii) (s : string) : list string :=
  match s with
  | EmptyString => [EmptyString]
  | String a s' =>
      if Ascii.eqb a c then EmptyString :: split c s'
      else match split c s' with
           | h :: t => String a h :: t
           | [] => [String a EmptyString]
           end
  end.

(** [s.indexOf(c)]; [None] stands for -1. *)
Fixpoint indexOf (c : ascii) (s : string) : option nat :=
  match s with
  | EmptyString => None
  | String a s' =>
      if Ascii.eqb a c then Some 0 else S <$> indexOf c s'
  end.

(** [s.slice(from, to)] and [s.slice(from)] for indices within range. *)
Definition slice (from to : nat) (s : string) : string :=
  String.substring from (to - from) s.

Definition sliceFrom (from : nat) (s : string) : string :=
  String.substring from (String.length s - from) s.

(** [l.join(sep)] *)
Fixpoint join (sep : string) (l : list string) : string :=
  match l with
  | [] => EmptyString
  | [x] => x
  | x :: rest => (x ++ sep ++ join sep rest)%string
  end.

(** *** [parseInt(s, 10)] *)

(** The white space [parseInt] skips, as far as it lies in ASCII: space,
    tab, line feed, vertical tab, form feed, carriage return. *)
Definition isWhiteSpace (a : ascii) : bool :=
  let n := nat_of_ascii a in
  (Nat.eqb n 32 || Nat.leb 9 n && Nat.leb n 13)%bool.

Definition digitValue (a : ascii) : option Z :=
  let n := nat_of_ascii a in
  if (Nat.leb 48 n && Nat.leb n 57)%bool then Some (Z.of_nat (n - 48))
  else None.

Fixpoint trimStart (s : string) : string :=
  match s with
  | String a s' => if isWhiteSpace a then trimStart s' else s
  | EmptyString => EmptyString
  end.

(** The longest prefix of decimal digits, accumulated left to right. *)
Fixpoint digits (acc : option Z) (s : string) : option Z :=
  match s with
  | EmptyString => acc
  | String a s' =>
      match digitValue a with
      | Some d => digits (Some (10 * default 0%Z acc + d)%Z) s'
      | None => acc
      end
  end.

Definition parseInt (s : string) : JsNum :=
  let t := trimStart s in
  let '(neg, body) :=
    match t with
    | String "-" r => (true, r)
    | String "+" r => (false, r)
    | _ => (false, t)
    end in
  match digits None body with
  | None => NaN
  | Some z => Int (if neg : bool then (- z)%Z else z)
  end.

(** [parseInt(args[++i], 10)]: [undefined] is read as the text
    "undefined", which holds no digit. *)
Definition parseIntMaybe (v : Maybe string) : JsNum :=
  match v with
  | Undefined => NaN
  | Defined s => parseInt s
  end.

End JS.
Import JS.

(** ** [extractPatterns] *)

Definition optionsWithValues : gset string :=
  list_to_set
    [ "-c"; "--config"; "--env"; "--ext"; "-f"; "--format";
      "--parser"; "--parser-options"; "--resolve-plugins-relative-to";
      "--rulesdir"; "--plugin"; "--rule"; "-o"; "--output-file";
      "--ignore-path"; "--max-warnings"; "--cache-location";
      "--cache-strategy" ].

(** [set.has(x)] *)
Definition has (set : gset string) (x : string) : bool :=
  bool_decide (x ∈ set).

(** The [for] loop of [extractPatterns], on the tokens still to visit,
    with the two variables the loop mutates.  It returns both at exit. *)
Fixpoint extractLoop (args : list string) (skipNext : bool)
    (patterns : list string) : list string * bool :=
  match args with
  | [] => (patterns, skipNext)
  | arg :: rest =>
      if skipNext then extractLoop rest false patterns
      else if startsWith "-" arg then
        extractLoop rest (if has optionsWithValues arg then true else skipNext)
          patterns
      else extractLoop rest skipNext (patterns ++ [arg])
  end.

Definition extractPatterns (args : list string) : list string :=
  let patterns := fst (extractLoop args false []) in
  if Nat.ltb 0 (List.length patterns) then patterns else ["."].

(** ** [findUnsupportedOptions] *)

Definition DEFAULT_EXTENSIONS : list string :=
  [".js"; ".jsx"; ".ts"; ".tsx"; ".mjs"; ".cjs"; ".mts"; ".cts"].

Definition SUPPORTED_FLAGS : gset string :=
  list_to_set
    [ "--fix"; "--fix-dry-run"; "--cache"; "--no-cache";
      "--no-error-on-unmatched-pattern" ].

Definition SUPPORTED_OPTIONS_WITH_VALUES : gset string :=
  list_to_set
    [ "-c"; "--config"; "--cache-location"; "--cache-strategy";
      "--max-warnings"; "-f"; "--format"; "--ext"; "--rule" ].

(** [arg.includes("=") ? arg.split("=")[0] : arg] *)
Definition optionName (arg : string) : string :=
  if includes "=" arg then hd EmptyString (split "=" arg) else arg.

(** The [for] loop of [findUnsupportedOptions]; [rest] is [args] from
    index [i + 1] on, so its head is [args[i + 1]] when [i + 1 < args.length]. *)
Fixpoint unsupportedLoop (args : list string) (skipNext : bool)
    (unsupported : list string) : list string :=
  match args with
  | [] => unsupported
  | arg :: rest =>
      if skipNext then unsupportedLoop rest false unsupported
      else if negb (startsWith "-" arg) then
        unsupportedLoop rest skipNext unsupported
      else
        let name := optionName arg in
        if has SUPPORTED_FLAGS name then
          unsupportedLoop rest skipNext unsupported
        else if has SUPPORTED_OPTIONS_WITH_VALUES name then
          unsupportedLoop rest
            (if negb (includes "=" arg) then true else skipNext) unsupported
        else
          let unsupported' := unsupported ++ [name] in
          let nextIsValue :=
            match rest with
            | next :: _ => negb (startsWith "-" next)
            | [] => false
            end in
          unsupportedLoop rest (if nextIsValue then true else skipNext)
            unsupported'
  end.

Definition findUnsupportedOptions (args : list string) : list string :=
  unsupportedLoop args false [].

(** ** [calculateExitCode] *)

Definition calculateExitCode (errorCount warningCount : Z)
    (maxWarnings : option JsNum) : Z :=
  if (0 <? errorCount)%Z then 1%Z
  else match maxWarnings with
       | Some t => if JS.gt warningCount t then 1%Z else 0%Z
       | None => 0%Z
       end.

(** ** [parseRuleValue] and [parseESLintOptions] *)

(** [JSON.parse] is the engine's own; the development is parametric in it.
    [None] stands for the [SyntaxError] it raises. *)
Class JsonParser : Type := {
  Json : Type;
  JSON_parse : string -> option Json
}.

Section Parser.
Context `{JsonParser}.

(** [config: unknown] holds one of three kinds of value. *)
Inductive RuleConfig : Type :=
| Severity (n : Z)
| RawString (s : string)
| Literal (j : Json).

(** The own properties of [severityMap].  What a lookup would inherit
    from [Object.prototype] is not a number, so [isNaN] sends it to the
    same branch as a failed [parseInt]. *)
Definition severityMap : gmap string Z :=
  <["off" := 0%Z]> (<["warn" := 1%Z]> (<["error" := 2%Z]> ∅)).

(** [None] is the [null] returned for a value without colon.  The last
    [match] is [isNaN(severity) ? configStr : severity]. *)
Definition parseRuleValue (value : string) : option (string * RuleConfig) :=
  match indexOf ":" value with
  | None => None
  | Some colonIndex =>
      let name := slice 0 colonIndex value in
      let configStr := sliceFrom (colonIndex + 1) value in
      if startsWith "[" configStr then
        match JSON_parse configStr with
        | Some j => Some (name, Literal j)
        | None => Some (name, RawString configStr)
        end
      else
        let severity :=
          match severityMap !! configStr with
          | Some n => Int n
          | None => parseInt configStr
          end in
        Some (name,
              match severity with
              | NaN => RawString configStr
              | Int n => Severity n
              end)
  end.

(** [ESLint.Options] as far as the runner writes it: [None] is a property
    that was never assigned.  [rules] is a plain object used as a map from
    rule names to configs; the names are taken to be ordinary property
    names (the property name [__proto__], which an object treats
    specially, is outside the model). *)
Record ESLintOptions : Type := {
  fix_ : option bool;  (* the property [fix] *)
  overrideConfigFile : option (Maybe string);
  cache : option bool;
  cacheLocation : option (Maybe string);
  cacheStrategy : option (Maybe string);
  errorOnUnmatchedPattern : option bool;
  overrideConfig : option (gmap string RuleConfig)
}.

Record ParsedOptions : Type := {
  eslintOptions : ESLintOptions;
  maxWarnings : option JsNum;
  format : Maybe string;
  extensions : list string
}.

(** The five variables [parseESLintOptions] declares before its loop. *)
Record ParseState : Type := {
  st_options : ESLintOptions;
  st_maxWarnings : option JsNum;
  st_format : Maybe string;
  st_extensions : list string;
  st_rules : gmap string RuleConfig
}.

Definition noOptions : ESLintOptions :=
  {| fix_ := None; overrideConfigFile := None; cache := None;
     cacheLocation := None; cacheStrategy := None;
     errorOnUnmatchedPattern := None; overrideConfig := None |}.

Definition initialState : ParseState :=
  {| st_options := noOptions; st_maxWarnings := None;
     st_format := Defined "stylish"; st_extensions := [];
     st_rules := ∅ |}.

Definition withOptions (f : ESLintOptions -> ESLintOptions)
    (st : ParseState) : ParseState :=
  {| st_options := f (st_options st); st_maxWarnings := st_maxWarnings st;
     st_format := st_format st; st_extensions := st_extensions st;
     st_rules := st_rules st |}.

Definition setFix (b : bool) (o : ESLintOptions) : ESLintOptions :=
  {| fix_ := Some b; overrideConfigFile := overrideConfigFile o;
     cache := cache o; cacheLocation := cacheLocation o;
     cacheStrategy := cacheStrategy o;
     errorOnUnmatchedPattern := errorOnUnmatchedPattern o;
     overrideConfig := overrideConfig o |}.

Definition setOverrideConfigFile (v : Maybe string) (o : ESLintOptions) :=
  {| fix_ := fix_ o; overrideConfigFile := Some v;
     cache := cache o; cacheLocation := cacheLocation o;
     cacheStrategy := cacheStrategy o;
     errorOnUnmatchedPattern := errorOnUnmatchedPattern o;
     overrideConfig := overrideConfig o |}.

Definition setCache (b : bool) (o : ESLintOptions) : ESLintOptions :=
  {| fix_ := fix_ o; overrideConfigFile := overrideConfigFile o;
     cache := Some b; cacheLocation := cacheLocation o;
     cacheStrategy := cacheStrategy o;
     errorOnUnmatchedPattern := errorOnUnmatchedPattern o;
     overrideConfig := overrideConfig o |}.

Definition setCacheLocation (v : Maybe string) (o : ESLintOptions) :=
  {| fix_ := fix_ o; overrideConfigFile := overrideConfigFile o;
     cache := cache o; cacheLocation := Some v;
     cacheStrategy := cacheStrategy o;
     errorOnUnmatchedPattern := errorOnUnmatchedPattern o;
     overrideConfig := overrideConfig o |}.

Definition setCacheStrategy (v : Maybe string) (o : ESLintOptions) :=
  {| fix_ := fix_ o; overrideConfigFile := overrideConfigFile o;
     cache := cache o; cacheLocation := cacheLocation o;
     cacheStrategy := Some v;
     errorOnUnmatchedPattern := errorOnUnmatchedPattern o;
     overrideConfig := overrideConfig o |}.

Definition setErrorOnUnmatchedPattern (b : bool) (o : ESLintOptions) :=
  {| fix_ := fix_ o; overrideConfigFile := overrideConfigFile o;
     cache := cache o; cacheLocation := cacheLocation o;
     cacheStrategy := cacheStrategy o;
     errorOnUnmatchedPattern := Some b;
     overrideConfig := overrideConfig o |}.

Definition setOverrideConfig (rules : gmap string RuleConfig)
    (o : ESLintOptions) : ESLintOptions :=
  {| fix_ := fix_ o; overrideConfigFile := overrideConfigFile o;
     cache := cache o; cacheLocation := cacheLocation o;
     cacheStrategy := cacheStrategy o;
     errorOnUnmatchedPattern := errorOnUnmatchedPattern o;
     overrideConfig := Some rules |}.

Definition setMaxWarnings (n : JsNum) (st : ParseState) : ParseState :=
  {| st_options := st_options st; st_maxWarnings := Some n;
     st_format := st_format st; st_extensions := st_extensions st;
     st_rules := st_rules st |}.

Definition setFormat (v : Maybe string) (st : ParseState) : ParseState :=
  {| st_options := st_options st; st_maxWarnings := st_maxWarnings st;
     st_format := v; st_extensions := st_extensions st;
     st_rules := st_rules st |}.

Definition setExtensions (l : list string) (st : ParseState) : ParseState :=
  {| st_options := st_options st; st_maxWarnings := st_maxWarnings st;
     st_format := st_format st; st_extensions := l;
     st_rules := st_rules st |}.

Definition setRule (name : string) (config : RuleConfig)
    (st : ParseState) : ParseState :=
  {| st_options := st_options st; st_maxWarnings := st_maxWarnings st;
     st_format := st_format st; st_extensions := st_extensions st;
     st_rules := <[name := config]> (st_rules st) |}.

(** [(e) => e.startsWith(".") ? e : `.${e}`] *)
Definition dotted (e : string) : string :=
  if startsWith "." e then e else "." +:+ e.

Definition typeError : string := "TypeError".

(** One turn of the [switch]: [next] is what [args[++i]] would read.  The
    boolean tells whether the case executed [++i]. *)
Definition switchCase (arg : string) (next : Maybe string)
    (st : ParseState) : Completion (ParseState * bool) :=
  if String.eqb arg "--fix" then
    Normal (withOptions (setFix true) st, false)
  else if String.eqb arg "--fix-dry-run" then
    Normal (withOptions (setFix true) st, false)
  else if String.eqb arg "-c" || String.eqb arg "--config" then
    Normal (withOptions (setOverrideConfigFile next) st, true)
  else if String.eqb arg "--cache" then
    Normal (withOptions (setCache true) st, false)
  else if String.eqb arg "--no-cache" then
    Normal (withOptions (setCache false) st, false)
  else if String.eqb arg "--cache-location" then
    Normal (withOptions (setCacheLocation next) st, true)
  else if String.eqb arg "--cache-strategy" then
    Normal (withOptions (setCacheStrategy next) st, true)
  else if String.eqb arg "--no-error-on-unmatched-pattern" then
    Normal (withOptions (setErrorOnUnmatchedPattern false) st, false)
  else if String.eqb arg "--max-warnings" then
    Normal (setMaxWarnings (parseIntMaybe next) st, true)
  else if String.eqb arg "-f" || String.eqb arg "--format" then
    Normal (setFormat next st, true)
  else if String.eqb arg "--ext" then
    match next with
    | Undefined => Throw typeError
    | Defined extArg =>
        Normal (setExtensions (dotted <$> split "," extArg) st, true)
    end
  else if String.eqb arg "--rule" then
    match next with
    | Undefined => Throw typeError
    | Defined value =>
        match parseRuleValue value with
        | Some (name, config) => Normal (setRule name config st, true)
        | None => Normal (st, true)
        end
    end
  else Normal (st, false).

(** The [for] loop of [parseESLintOptions] over the tokens from index [i]
    on; a case that ran [++i] makes the loop resume two tokens further. *)
Fixpoint parseLoop (args : list string) (st : ParseState)
    : Completion ParseState :=
  match args with
  | [] => Normal st
  | arg :: rest =>
      let next := match rest with v :: _ => Defined v | [] => Undefined end in
      match switchCase arg next st with
      | Throw e => Throw e
      | Normal (st', consumed) =>
          if consumed : bool then
            match rest with
            | _ :: rest' => parseLoop rest' st'
            | [] => Normal st'
            end
          else parseLoop rest st'
      end
  end.

Definition parseESLintOptions (args : list string)
    : Completion ParsedOptions :=
  match parseLoop args initialState with
  | Throw e => Throw e
  | Normal st =>
      let rules := st_rules st in
      let options :=
        if Nat.ltb 0 (size rules)
        then setOverrideConfig rules (st_options st)
        else st_options st in
      Normal {| eslintOptions := options;
                maxWarnings := st_maxWarnings st;
                format := st_format st;
                extensions :=
                  if Nat.ltb 0 (List.length (st_extensions st))
                  then st_extensions st else DEFAULT_EXTENSIONS |}
  end.

End Parser.

(** A [JSON.parse] that accepts no text.  It stands in for the real one on
    inputs in which no rule config starts with a bracket. *)
Definition noJson : JsonParser :=
  {| Json := Empty_set; JSON_parse := fun _ => None |}.

(** ** The outside world *)

(** [ESLint.LintResult], of which the runner reads two counters. *)
Record LintResult : Type := {
  filePath : string;
  errorCount : Z;
  warningCount : Z
}.

Record RunResult : Type := {
  exitCode : Z;
  output : string;
  errorOutput : string
}.

(** How the child process of the fallback ends: the first of its [close]
    and [error] events settles the promise. *)
Inductive SpawnOutcome : Type :=
| Closed (code : option Z) (stdout stderr : string)
| SpawnFailed (message : string).

Section World.
Context `{JsonParser}.

(** Every call that leaves the runner, in the order it is made.  A call
    of the engine's lint operation is recorded with what it produced. *)
Inductive Event : Type :=
| StderrWrite (text : string)
| StdoutWrite (text : string)
| ConsoleError (text : string)
| ImportESLint
| NewESLint (options : ESLintOptions)
| Globby (globPatterns : list string)
| IsPathIgnored (file : string)
| LintFiles (patterns : list string)
    (outcome : Completion (list LintResult))
| LoadFormatter (name : Maybe string)
| Format (results : list LintResult)
| OutputFixes (results : list LintResult)
| DateNow
| NewSingleBar
| BarStart (total : nat)
| BarIncrement (count : nat)
| BarStop
| Spawn (command : string) (argv : list string).

(** The collaborators.  Each answer may depend on everything that
    happened before the call (the trace so far).  [toFixed1 ms] is the
    text of [(ms / 1000).toFixed(1)]; [spawn argv] is how the child
    [npx argv] ends. *)
Class Host : Type := {
  stderrIsTTY : bool;
  processEnv : gmap string string;
  importESLint : list Event -> bool;
  newESLint : ESLintOptions -> list Event -> Completion unit;
  globby : list string -> list Event -> Completion (list string);
  isPathIgnored : string -> list Event -> Completion bool;
  lintFiles : list string -> list Event -> Completion (list LintResult);
  loadFormatter : Maybe string -> list Event -> Completion unit;
  formatResults : list LintResult -> list Event -> Completion string;
  outputFixes : list LintResult -> list Event -> Completion unit;
  dateNow : list Event -> Z;
  toFixed1 : Z -> string;
  spawn : list string -> list Event -> SpawnOutcome
}.

(** A computation reads and extends the trace, and may raise. *)
Definition M (A : Type) : Type := list Event -> Completion A * list Event.

#[global] Instance M_ret : MRet M := fun A a tr => (Normal a, tr).

#[global] Instance M_bind : MBind M := fun A B k m tr =>
  match m tr with
  | (Normal a, tr') => k a tr'
  | (Throw e, tr') => (Throw e, tr')
  end.

(** An external call: the event is recorded, the collaborator answers
    from the trace before the call. *)
Definition call {A : Type} (ev : Event)
    (answer : list Event -> Completion A) : M A :=
  fun tr => (answer tr, tr ++ [ev]).

Definition emit (ev : Event) : M unit :=
  fun tr => (Normal tt, tr ++ [ev]).

Definition lift {A : Type} (c : Completion A) : M A := fun tr => (c, tr).

(** [try { body } catch (e) { handler }] *)
Definition tryCatch {A : Type} (body : M A) (handler : string -> M A) : M A :=
  fun tr =>
    match body tr with
    | (Normal a, tr') => (Normal a, tr')
    | (Throw e, tr') => handler e tr'
    end.

Definition when (b : bool) (m : M unit) : M unit :=
  if b then m else mret tt.

End World.

(** *** Text constants *)

Definition CR : string := String "013"%char EmptyString.
Definition LF : string := String "010"%char EmptyString.
Definition ESC : string := String "027"%char EmptyString.

(** ** [progress.ts] *)

Section Progress.
Context `{Host}.

(** A string is truthy unless empty; an unset variable is [undefined]. *)
Definition truthy (v : option string) : bool :=
  match v with
  | Some s => negb (String.eqb s EmptyString)
  | None => false
  end.

Definition ciVars : list string :=
  [ "CI"; "CONTINUOUS_INTEGRATION"; "GITHUB_ACTIONS";
    "TRAVIS"; "CIRCLECI"; "GITLAB_CI"; "JENKINS_URL";
    "BUILDKITE"; "TF_BUILD" ].

Definition shouldShowProgress : bool :=
  if negb stderrIsTTY then false
  else negb (existsb (fun v => truthy (processEnv !! v)) ciVars).

(** The object [createProgressBar] returns: the three no-ops, or the
    closure over the widget with its [started] variable. *)
Inductive ProgressBar : Type :=
| NoBar
| Bar (started : bool).

(** The cosmetic configuration read from package.json only reaches the
    widget's constructor and is left out. *)
Definition createProgressBar : M ProgressBar :=
  if negb shouldShowProgress then mret NoBar
  else emit NewSingleBar ;; mret (Bar false).

Definition barStart (total : nat) (bar : ProgressBar) : M ProgressBar :=
  match bar with
  | NoBar => mret NoBar
  | Bar started =>
      if Nat.ltb 0 total then emit (BarStart total) ;; mret (Bar true)
      else mret (Bar started)
  end.

Definition barIncrement (count : nat) (bar : ProgressBar) : M unit :=
  match bar with
  | NoBar => mret tt
  | Bar started => when started (emit (BarIncrement count))
  end.

Definition barStop (bar : ProgressBar) : M ProgressBar :=
  match bar with
  | NoBar => mret NoBar
  | Bar started =>
      if started then emit BarStop ;; mret (Bar false) else mret (Bar started)
  end.

End Progress.

(** ** The batched execution engine and the fallback *)

Definition BATCH_SIZE : nat := 20.

(** [l.slice(from, to)] on an array *)
Definition sliceList {A : Type} (from to : nat) (l : list A) : list A :=
  take (to - from) (drop from l).

Section Runner.
Context `{Host}.

(** The glob patterns [getFilesToLint] hands to globby. *)
Definition globPatterns (patterns extensions : list string) : list string :=
  flat_map
    (fun pattern =>
       if includes "*" pattern
          || existsb (fun ext => endsWith ext pattern) extensions
       then [pattern]
       else (fun ext => pattern +:+ "/**/*" +:+ ext) <$> extensions)
    patterns.

Definition getFilesToLint (patterns extensions : list string)
    : M (list string) :=
  let globs := globPatterns patterns extensions in
  tryCatch (call (Globby globs) (globby globs)) (fun _ => mret []).

(** [loadESLint]: whether the dynamic import produced the module. *)
Definition loadESLint : M bool :=
  fun tr => (Normal (importESLint tr), tr ++ [ImportESLint]).

(** The loop that keeps the candidates the engine does not ignore. *)
Fixpoint filterIgnored (candidateFiles files : list string)
    : M (list string) :=
  match candidateFiles with
  | [] => mret files
  | file :: rest =>
      ignored ← call (IsPathIgnored file) (isPathIgnored file);
      filterIgnored rest (if negb ignored then files ++ [file] else files)
  end.

(** [eslint.lintFiles(paths)] *)
Definition lint (paths : list string) : M (list LintResult) :=
  fun tr =>
    let outcome := lintFiles paths tr in
    (outcome, tr ++ [LintFiles paths outcome]).

(** [results.reduce((sum, r) => sum + r.errorCount, 0)] and its twin *)
Definition sumErrors (results : list LintResult) : Z :=
  fold_left (fun sum r => (sum + errorCount r)%Z) results 0%Z.

Definition sumWarnings (results : list LintResult) : Z :=
  fold_left (fun sum r => (sum + warningCount r)%Z) results 0%Z.

(** The batch loop of [runWithAPI], from index [i] with the results
    accumulated so far. *)
Equations batchLoop (files : list string) (progressBar : ProgressBar)
    (i : nat) (allResults : list LintResult) : M (list LintResult)
    by wf (List.length files - i) lt :=
  batchLoop files progressBar i allResults with
      decide (i < List.length files) => {
    | right _ => mret allResults
    | left _ =>
        let batch := sliceList i (i + BATCH_SIZE) files in
        results ← lint batch;
        barIncrement (List.length batch) progressBar ;;
        batchLoop files progressBar (i + BATCH_SIZE) (allResults ++ results)
    }.
Next Obligation. unfold BATCH_SIZE. lia. Qed.

Definition finish (results : list LintResult) (format : Maybe string)
    (maxWarnings : option JsNum) : M (option RunResult) :=
  call (LoadFormatter format) (loadFormatter format) ;;
  output ← call (Format results) (formatResults results);
  let errorCount := sumErrors results in
  let warningCount := sumWarnings results in
  mret (Some {| exitCode := calculateExitCode errorCount warningCount
                              maxWarnings;
                output := output;
                errorOutput := EmptyString |}).

(** The summary line written once the bar has stopped. *)
Definition lintedLine (totalFiles : nat) (duration : string) : string :=
  ESC +:+ "[35mLinted " +:+ pretty totalFiles +:+ " files in " +:+ duration
    +:+ "s" +:+ ESC +:+ "[0m" +:+ LF.

Definition truthyFlag (b : option bool) : bool := default false b.

(** The body of the [try] block of [runWithAPI]. *)
Definition runWithAPIBody (args : list string) : M (option RunResult) :=
  parsed ← lift (parseESLintOptions args);
  let eslintOptions := eslintOptions parsed in
  let maxWarnings := maxWarnings parsed in
  let format := format parsed in
  let extensions := extensions parsed in
  call (NewESLint eslintOptions) (newESLint eslintOptions) ;;
  let patterns := extractPatterns args in
  let showProgress := shouldShowProgress in
  when showProgress (emit (StderrWrite ("Discovering files..." +:+ CR))) ;;
  candidateFiles ← getFilesToLint patterns extensions;
  files ← filterIgnored candidateFiles [];
  when showProgress (emit (StderrWrite ("                    " +:+ CR))) ;;
  let totalFiles := List.length files in
  if Nat.eqb totalFiles 0 then
    results ← lint patterns;
    finish results format maxWarnings
  else
    progressBar ← createProgressBar;
    progressBar ← barStart totalFiles progressBar;
    startTime ← (fun tr => (Normal (dateNow tr), tr ++ [DateNow]));
    allResults ← batchLoop files progressBar 0 [];
    barStop progressBar ;;
    (if showProgress then
       now ← (fun tr => (Normal (dateNow tr), tr ++ [DateNow]));
       emit (StderrWrite
               (lintedLine totalFiles (toFixed1 (now - startTime)%Z)))
     else mret tt) ;;
    when (truthyFlag (fix_ eslintOptions))
      (call (OutputFixes allResults) (outputFixes allResults)) ;;
    finish allResults format maxWarnings.

Definition runWithAPI (args : list string) : M (option RunResult) :=
  loaded ← loadESLint;
  if negb loaded then mret None
  else
    tryCatch (runWithAPIBody args)
      (fun error =>
         when (truthy (processEnv !! "DEBUG"))
           (emit (ConsoleError
                    ("[eslint-progress-bar] ESLint API error: " +:+ error))) ;;
         mret None).

(** [runWithSpawn]: the promise settles with the child's outcome. *)
Definition runWithSpawn (args : list string) : M RunResult :=
  fun tr =>
    let argv := "eslint" :: args in
    (Normal
       match spawn argv tr with
       | Closed code stdout stderr =>
           {| exitCode := default 1%Z code;
              output := stdout; errorOutput := stderr |}
       | SpawnFailed message =>
           {| exitCode := 1%Z; output := EmptyString;
              errorOutput := "Failed to spawn: " +:+ message |}
       end,
     tr ++ [Spawn "npx" argv]).

Definition nonEmpty (s : string) : bool := negb (String.eqb s EmptyString).

(** The two writes that relay a [RunResult], and its exit code. *)
Definition relay (result : RunResult) : M Z :=
  when (nonEmpty (output result)) (emit (StdoutWrite (output result))) ;;
  when (nonEmpty (errorOutput result))
    (emit (StderrWrite (errorOutput result))) ;;
  mret (exitCode result).

Definition unsupportedWarning (unsupported : list string) : string :=
  ESC +:+ "[33m⚠ Unsupported option"
    +:+ (if Nat.ltb 1 (List.length unsupported) then "s" else EmptyString)
    +:+ ": " +:+ join ", " unsupported +:+ LF
    +:+ "  Running ESLint directly (no progress bar)" +:+ ESC +:+ "[0m"
    +:+ LF +:+ LF.

Definition runESLint (args : list string) : M Z :=
  let unsupported := findUnsupportedOptions args in
  if Nat.ltb 0 (List.length unsupported) then
    emit (StderrWrite (unsupportedWarning unsupported)) ;;
    spawnResult ← runWithSpawn args;
    relay spawnResult
  else
    result ← runWithAPI args;
    match result with
    | Some result => relay result
    | None =>
        spawnResult ← runWithSpawn args;
        relay spawnResult
    end.

End Runner.

(** ** Reference descriptions

    The definitions below restate, in the words of the documentation, what
    some of the loops above are meant to compute.  They are compared with
    the loops in the second half of the file. *)

(** The substring before the first ['='], the whole string when there is
    none. *)
Fixpoint beforeEquals (s : string) : string :=
  match s with
  | EmptyString => EmptyString
  | String a s' =>
      if Ascii.eqb a "=" then EmptyString else String a (beforeEquals s')
  end.

(** The classifier as a description: walk the tokens; a token that does not
    start with a dash is passed over; a supported flag is passed over; a
    supported option with a value takes the following token unless it came
    with ['=']; any other dash token is reported by its name and takes the
    following token only when that one does not start with a dash. *)
Fixpoint unsupportedSpec (args : list string) : list string :=
  match args with
  | [] => []
  | arg :: rest =>
      if startsWith "-" arg then
        let name := beforeEquals arg in
        if has SUPPORTED_FLAGS name then unsupportedSpec rest
        else if has SUPPORTED_OPTIONS_WITH_VALUES name then
          if includes "=" arg then unsupportedSpec rest
          else match rest with
               | _ :: rest' => unsupportedSpec rest'
               | [] => []
               end
        else
          name ::
            match rest with
            | next :: rest' =>
                if startsWith "-" next then unsupportedSpec rest
                else unsupportedSpec rest'
            | [] => []
            end
      else unsupportedSpec rest
  end.

(** The patterns as a description: a dash token is an option; when it is
    in the value set the token after it is its value; every other token
    is a pattern. *)
Fixpoint patternsSpec (args : list string) : list string :=
  match args with
  | [] => []
  | arg :: rest =>
      if startsWith "-" arg then
        if has optionsWithValues arg then
          match rest with
          | _ :: rest' => patternsSpec rest'
          | [] => []
          end
        else patternsSpec rest
      else arg :: patternsSpec rest
  end.

(** The patterns the loop of [extractPatterns] has pushed at its exit, and
    whether it exits owing a value to the last option. *)
Definition collected (args : list string) : list string :=
  fst (extractLoop args false []).

Definition owesValue (args : list string) : bool :=
  snd (extractLoop args false []).

(** The value options [extractPatterns] knows beyond the supported ones. *)
Definition unsupportedValueOptions : gset string :=
  optionsWithValues ∖ SUPPORTED_OPTIONS_WITH_VALUES.

(** The thirteen labels of the [switch] in [parseESLintOptions]. *)
Definition caseLabels : list string :=
  [ "--fix"; "--fix-dry-run"; "-c"; "--config"; "--cache"; "--no-cache";
    "--cache-location"; "--cache-strategy";
    "--no-error-on-unmatched-pattern"; "--max-warnings"; "-f"; "--format";
    "--ext"; "--rule" ].

(** Where the parser's cursor stands after a run of tokens: [Some opt] when
    the last token it read as an option is a supported option with a value
    whose value lies beyond the run, [None] when the run is read whole. *)
Fixpoint pendingOption (args : list string) : option string :=
  match args with
  | [] => None
  | arg :: rest =>
      if has SUPPORTED_OPTIONS_WITH_VALUES arg then
        match rest with
        | [] => Some arg
        | _ :: rest' => pendingOption rest'
        end
      else pendingOption rest
  end.


Section RuleSpec.
Context `{JsonParser}.







End RuleSpec.

(** The file list cut into consecutive chunks of [BATCH_SIZE] files, the
    last one possibly shorter. *)
Equations chunksOf (files : list string) : list (list string)
    by wf (List.length files) lt :=
  chunksOf [] := [];
  chunksOf (file :: rest) :=
    take BATCH_SIZE (file :: rest)
      :: chunksOf (drop BATCH_SIZE (file :: rest)).
Next Obligation.
  unfold BATCH_SIZE. cbn [drop List.length]. rewrite length_drop. lia.
Qed.

Section EngineSpec.
Context `{Host}.

(** Chunk after chunk: lint the chunk, append what the engine returns,
    advance the progress by the size of the chunk. *)
Fixpoint lintChunks (progressBar : ProgressBar) (chunks : list (list string))
    (allResults : list LintResult) : M (list LintResult) :=
  match chunks with
  | [] => mret allResults
  | batch :: later =>
      results ← lint batch;
      barIncrement (List.length batch) progressBar ;;
      lintChunks progressBar later (allResults ++ results)
  end.

(** What a stretch of the trace says about the engine and the widget. *)
Definition lintedBatches (evs : list Event) : list (list string) :=
  omap (fun ev => match ev with
                  | LintFiles paths _ => Some paths
                  | _ => None
                  end) evs.



(** An event that is neither a lint call nor a call of the widget. *)
Definition quiet (ev : Event) : bool :=
  match ev with
  | LintFiles _ _ | NewSingleBar | BarStart _ | BarIncrement _ | BarStop =>
      false
  | _ => true
  end.

(** A computation that only adds quiet events to the trace. *)
Definition addsQuiet {A : Type} (m : M A) : Prop :=
  forall tr, exists evs,
    snd (m tr) = tr ++ evs /\ Forall (fun ev => quiet ev = true) evs.


(** The first half of the [try] block of [runWithAPI]: up to the point
    where the filtered file list is known. *)
Definition discovery (args : list string)
    : M (ParsedOptions * list string) :=
  parsed ← lift (parseESLintOptions args);
  call (NewESLint (eslintOptions parsed)) (newESLint (eslintOptions parsed)) ;;
  when shouldShowProgress
    (emit (StderrWrite ("Discovering files..." +:+ CR))) ;;
  candidateFiles ←
    getFilesToLint (extractPatterns args) (extensions parsed);
  files ← filterIgnored candidateFiles [];
  when shouldShowProgress
    (emit (StderrWrite ("                    " +:+ CR))) ;;
  mret (parsed, files).

(** The [RunResult] the fallback makes of the child's outcome. *)
Definition spawnResult (outcome : SpawnOutcome) : RunResult :=
  match outcome with
  | Closed code stdout stderr =>
      {| exitCode := default 1%Z code;
         output := stdout; errorOutput := stderr |}
  | SpawnFailed message =>
      {| exitCode := 1%Z; output := EmptyString;
         errorOutput := "Failed to spawn: " +:+ message |}
  end.

(** The writes that relay a [RunResult]. *)
Definition relayed (result : RunResult) : list Event :=
  (if nonEmpty (output result) then [StdoutWrite (output result)] else [])
    ++ (if nonEmpty (errorOutput result)
        then [StderrWrite (errorOutput result)] else []).

End EngineSpec.

(** A host for examples: a terminal outside CI, an engine that loads,
    ignores nothing and reports one warning per file, a glob that matches
    no file, and a child process that exits with code 2. *)
Definition exampleHost : @Host noJson :=
  {| stderrIsTTY := true;
     processEnv := ∅;
     importESLint := fun _ => true;
     newESLint := fun _ _ => Normal tt;
     globby := fun _ _ => Normal [];
     isPathIgnored := fun _ _ => Normal false;
     lintFiles := fun paths _ =>
       Normal ((fun path => {| filePath := path; errorCount := 0;
                               warningCount := 1 |}) <$> paths);
     loadFormatter := fun _ _ => Normal tt;
     formatResults := fun _ _ => Normal "report";
     outputFixes := fun _ _ => Normal tt;
     dateNow := fun _ => 0%Z;
     toFixed1 := fun _ => "0.0";
     spawn := fun _ _ => Closed (Some 2%Z) "out" EmptyString |}.

(** ** [cli.ts] *)

(** [array.includes(x)] *)
Definition arrayIncludes (x : string) (array : list string) : bool :=
  existsb (String.eqb x) array.

Definition QUOTE : string := String "034"%char EmptyString.

(** The template literal of [printUsage]; it starts and ends with a line
    break. *)
Definition usageText : string :=
  join LF
    [ EmptyString;
      "eslint-progress-bar - ESLint wrapper with progress bar";
      EmptyString;
      "Usage:";
      "  eslint-progress-bar [eslint-args...]";
      EmptyString;
      "Examples:";
      "  eslint-progress-bar .";
      "  eslint-progress-bar src --fix";
      "  eslint-progress-bar . --cache --max-warnings 0";
      EmptyString;
      "In package.json:";
      "  {";
      "    " +:+ QUOTE +:+ "scripts" +:+ QUOTE +:+ ": {";
      "      " +:+ QUOTE +:+ "lint" +:+ QUOTE +:+ ": " +:+ QUOTE
        +:+ "eslint-progress-bar ." +:+ QUOTE +:+ ",";
      "      " +:+ QUOTE +:+ "lint:fix" +:+ QUOTE +:+ ": " +:+ QUOTE
        +:+ "eslint-progress-bar . --fix" +:+ QUOTE;
      "    }";
      "  }";
      EmptyString;
      "Behavior:";
      "  - In local TTY: Shows a progress bar during linting";
      "  - In CI or non-TTY: Runs ESLint transparently (no progress bar)";
      "  - All arguments are forwarded to ESLint as-is";
      "  - Exit code matches ESLint's exit code";
      EmptyString ].

Section CLI.
Context `{Host}.

(** [pkg.version], read from package.json when the module is loaded. *)
Variable VERSION : string.

(** [console.log(text)] writes the text and a line break to the standard
    output. *)
Definition consoleLog (text : string) : M unit :=
  emit (StdoutWrite (text +:+ LF)).

Definition printUsage : M unit := consoleLog usageText.

(** [main]; the result is the code handed to [process.exit], [args] is
    [process.argv.slice(2)]. *)
Definition main (args : list string) : M Z :=
  if arrayIncludes "--help" args || arrayIncludes "-h" args then
    printUsage ;; mret 0%Z
  else if arrayIncludes "--version" args || arrayIncludes "-v" args then
    consoleLog ("eslint-progress-bar v" +:+ VERSION) ;; mret 0%Z
  else if Nat.eqb (List.length args) 0 then
    printUsage ;; mret 0%Z
  else
    tryCatch (runESLint args)
      (fun error =>
         emit (ConsoleError ("Unexpected error: " +:+ error)) ;;
         mret 1%Z).

End CLI.

(** ** Further reference descriptions *)

Section TraceSpec.
Context `{Host}.

(** A computation that only adds events of a given kind to the trace. *)
Definition addsOnly {A : Type} (allowed : Event -> bool) (m : M A) : Prop :=
  forall tr, exists evs,
    snd (m tr) = tr ++ evs /\ Forall (fun ev => allowed ev = true) evs.

(** A call of the progress widget. *)
Definition isWidget (ev : Event) : bool :=
  match ev with
  | NewSingleBar | BarStart _ | BarIncrement _ | BarStop => true
  | _ => false
  end.

(** An event that shows on the terminal's error stream: a write to it, a
    [console.error], or a call of the widget. *)
Definition showsOnTerminal (ev : Event) : bool :=
  match ev with
  | StderrWrite _ | ConsoleError _ => true
  | _ => isWidget ev
  end.

(** An event that leaves the terminal's error stream alone. *)
Definition offTerminal (ev : Event) : bool := negb (showsOnTerminal ev).

Definition ignoreChecks (evs : list Event) : list string :=
  omap (fun ev => match ev with
                  | IsPathIgnored file => Some file
                  | _ => None
                  end) evs.

(** The events of a batch loop in which every lint call returns: per
    chunk the call with its results, then the increment if the bar is
    started. *)
Fixpoint batchEvents (progressBar : ProgressBar)
    (chunks : list (list string)) (results : list (list LintResult))
    : list Event :=
  match chunks, results with
  | batch :: chunks', rs :: results' =>
      LintFiles batch (Normal rs)
        :: match progressBar with
           | Bar true => [BarIncrement (List.length batch)]
           | _ => []
           end
        ++ batchEvents progressBar chunks' results'
  | _, _ => []
  end.

(** The second half of the [try] block of [runWithAPI], from the point
    where the filtered file list is known. *)
Definition afterDiscovery (args : list string) (parsed : ParsedOptions)
    (files : list string) : M (option RunResult) :=
  let totalFiles := List.length files in
  if Nat.eqb totalFiles 0 then
    results ← lint (extractPatterns args);
    finish results (format parsed) (maxWarnings parsed)
  else
    progressBar ← createProgressBar;
    progressBar ← barStart totalFiles progressBar;
    startTime ← (fun tr => (Normal (dateNow tr), tr ++ [DateNow]));
    allResults ← batchLoop files progressBar 0 [];
    barStop progressBar ;;
    (if shouldShowProgress then
       now ← (fun tr => (Normal (dateNow tr), tr ++ [DateNow]));
       emit (StderrWrite
               (lintedLine totalFiles (toFixed1 (now - startTime)%Z)))
     else mret tt) ;;
    when (truthyFlag (fix_ (eslintOptions parsed)))
      (call (OutputFixes allResults) (outputFixes allResults)) ;;
    finish allResults (format parsed) (maxWarnings parsed).


(** A caller's use of the object [createProgressBar] returns. *)
Inductive BarCall : Type :=
| CallStart (total : nat)
| CallIncrement (count : nat)
| CallStop.

Fixpoint barCalls (calls : list BarCall) (bar : ProgressBar)
    : M ProgressBar :=
  match calls with
  | [] => mret bar
  | c :: later =>
      bar' ← match c with
             | CallStart total => barStart total bar
             | CallIncrement count => barIncrement count bar ;; mret bar
             | CallStop => barStop bar
             end;
      barCalls later bar'
  end.

(** The widget is driven in order: an increment or a stop only comes
    while the widget is started. *)
Fixpoint wellDriven (started : bool) (evs : list Event) : bool :=
  match evs with
  | [] => true
  | BarStart _ :: later => wellDriven true later
  | BarIncrement _ :: later => started && wellDriven started later
  | BarStop :: later => started && wellDriven false later
  | _ :: later => wellDriven started later
  end.

Definition isStarted (bar : ProgressBar) : bool :=
  match bar with
  | Bar started => started
  | NoBar => false
  end.

End TraceSpec.

(** The description of the classifier with the look-ahead of an
    unsupported option left out. *)
Fixpoint reportedSpec (args : list string) : list string :=
  match args with
  | [] => []
  | arg :: rest =>
      if startsWith "-" arg then
        let name := beforeEquals arg in
        if has SUPPORTED_FLAGS name then reportedSpec rest
        else if has SUPPORTED_OPTIONS_WITH_VALUES name then
          if includes "=" arg then reportedSpec rest
          else match rest with
               | _ :: rest' => reportedSpec rest'
               | [] => []
               end
        else name :: reportedSpec rest
      else reportedSpec rest
  end.

(** The tokens the parser reads at an option position: all but the
    tokens that a supported option with a value takes as its value. *)
Fixpoint readTokens (args : list string) : list string :=
  match args with
  | [] => []
  | arg :: rest =>
      arg ::
        if has SUPPORTED_OPTIONS_WITH_VALUES arg then
          match rest with
          | _ :: rest' => readTokens rest'
          | [] => []
          end
        else readTokens rest
  end.

(** Hosts for further examples: as [exampleHost], with the terminal, the
    environment, the availability of the engine module and the files
    globby finds left open. *)
Definition hostWith (tty : bool) (env : gmap string string) (loads : bool)
    (found : list string) : @Host noJson :=
  {| stderrIsTTY := tty;
     processEnv := env;
     importESLint := fun _ => loads;
     newESLint := fun _ _ => Normal tt;
     globby := fun _ _ => Normal found;
     isPathIgnored := fun _ _ => Normal false;
     lintFiles := fun paths _ =>
       Normal ((fun path => {| filePath := path; errorCount := 0;
                               warningCount := 1 |}) <$> paths);
     loadFormatter := fun _ _ => Normal tt;
     formatResults := fun _ _ => Normal "report";
     outputFixes := fun _ _ => Normal tt;
     dateNow := fun _ => 0%Z;
     toFixed1 := fun _ => "0.0";
     spawn := fun _ _ => Closed (Some 2%Z) "out" EmptyString |}.

(** * Properties *)

(** ** String primitives *)

Lemma includes_append c s t :
  includes c (s +:+ t) = includes c s || includes c t.
Proof.
  induction s as [|a s IH]; simpl; [done|].
  destruct (Ascii.eqb a c); [done|apply IH].
Qed.

Lemma split_nonempty c s : split c s <> [].
Proof.
  destruct s as [|a s]; simpl; [done|].
  destruct (Ascii.eqb a c); [done|]. by destruct (split c s).
Qed.

Lemma hd_split_beforeEquals s :
  hd EmptyString (split "=" s) = beforeEquals s.
Proof.
  induction s as [|a s IH]; simpl; [done|].
  destruct (Ascii.eqb a "="); [done|].
  destruct (split "=" s) eqn:E; simpl in *; by rewrite <- IH.
Qed.

Lemma beforeEquals_no_equals s : includes "=" s = false -> beforeEquals s = s.
Proof.
  induction s as [|a s IH]; simpl; [done|].
  destruct (Ascii.eqb a "="); [done|]. intros E. by rewrite IH.
Qed.

Lemma optionName_beforeEquals arg : optionName arg = beforeEquals arg.
Proof.
  unfold optionName. destruct (includes "=" arg) eqn:E.
  - apply hd_split_beforeEquals.
  - symmetry. by apply beforeEquals_no_equals.
Qed.

Lemma beforeEquals_assignment name value :
  includes "=" name = false ->
  beforeEquals (name +:+ "=" +:+ value) = name.
Proof.
  induction name as [|a name IH]; simpl; [done|].
  destruct (Ascii.eqb a "="); [done|]. intros E. by rewrite IH.
Qed.

Lemma startsWith_append p s t :
  startsWith p s = true -> startsWith p (s +:+ t) = true.
Proof.
  revert s. induction p as [|a p IH]; intros [|b s]; simpl; try done.
  destruct (Ascii.eqb a b); [apply IH|done].
Qed.

(** ** The exit-code rule *)

(** C1: the exit code is 1 when there is an error, 1 when a threshold is
    set and the warnings exceed it strictly, and 0 otherwise; warnings
    equal to the threshold pass, and without a threshold warnings alone
    never fail the run. *)
Theorem calculateExitCode_rule :
  forall (errors warnings : Z) (maxWarnings : option JsNum),
    (0 <= errors)%Z -> (0 <= warnings)%Z ->
    ((0 < errors)%Z ->
       calculateExitCode errors warnings maxWarnings = 1%Z)
    /\ (forall t, maxWarnings = Some (Int t) -> (t < warnings)%Z ->
          calculateExitCode errors warnings maxWarnings = 1%Z)
    /\ (errors = 0%Z ->
        (forall t, maxWarnings = Some (Int t) -> (warnings <= t)%Z) ->
          calculateExitCode errors warnings maxWarnings = 0%Z)
    /\ calculateExitCode 0 warnings (Some (Int warnings)) = 0%Z
    /\ calculateExitCode 0 warnings None = 0%Z.
Proof.
  intros e w mw He Hw. unfold calculateExitCode, JS.gt.
  repeat split.
  - intros Hpos. by rewrite (proj2 (Z.ltb_lt 0 e) Hpos).
  - intros t -> Hlt. destruct (0 <? e)%Z; [done|].
    by rewrite (proj2 (Z.ltb_lt t w) Hlt).
  - intros -> Hle. simpl. destruct mw as [[|t]|]; try done.
    specialize (Hle t eq_refl).
    by rewrite (proj2 (Z.ltb_ge t w) Hle).
  - simpl. by rewrite Z.ltb_irrefl.
Qed.

Lemma calculateExitCode_rule_witness :
  calculateExitCode 0 6 (Some (Int 5)) = 1%Z
  /\ calculateExitCode 0 5 (Some (Int 5)) = 0%Z
  /\ calculateExitCode 1 0 None = 1%Z.
Proof.
  split; [|split].
  - destruct (calculateExitCode_rule 0 6 (Some (Int 5))) as (_ & Hgt & _);
      [lia|lia|]. apply (Hgt 5%Z); [reflexivity|lia].
  - destruct (calculateExitCode_rule 0 5 (Some (Int 5))) as (_ & _ & _ & Heq & _);
      [lia|lia|]. exact Heq.
  - destruct (calculateExitCode_rule 1 0 None) as (Herr & _); [lia|lia|].
    apply Herr. lia.
Defined.

(** A threshold that failed to parse never fails the run. *)
Lemma calculateExitCode_NaN warnings :
  calculateExitCode 0 warnings (Some NaN) = 0%Z.
Proof. reflexivity. Qed.

(** ** Induction two tokens at a time

    The loops consume one token or an option together with its value, so
    the properties below are proved by an induction that offers the
    hypothesis for the tail and for the tail of the tail. *)

Lemma tokens_ind {A : Type} (P : list A -> Prop) :
  P [] ->
  (forall x l, P l -> (forall y l', l = y :: l' -> P l') -> P (x :: l)) ->
  forall l, P l.
Proof.
  intros Hnil Hcons l.
  enough (P l /\ (forall y l', l = y :: l' -> P l')) as [Hl _] by exact Hl.
  induction l as [|x l [IH1 IH2]].
  - split; [exact Hnil|discriminate].
  - split; [by apply Hcons|]. intros y l' [= _ <-]. exact IH1.
Qed.

(** ** The option classifier *)

Lemma unsupportedLoop_skip arg rest unsupported :
  unsupportedLoop (arg :: rest) true unsupported
  = unsupportedLoop rest false unsupported.
Proof. reflexivity. Qed.

Lemma unsupportedLoop_spec args :
  forall unsupported,
    unsupportedLoop args false unsupported
    = unsupported ++ unsupportedSpec args.
Proof.
  induction args as [|arg rest IH IH'] using tokens_ind; intros acc.
  - simpl. by rewrite app_nil_r.
  - cbn [unsupportedLoop unsupportedSpec].
    rewrite optionName_beforeEquals.
    destruct (startsWith "-" arg); cbn [negb]; [|apply IH].
    destruct (has SUPPORTED_FLAGS (beforeEquals arg)); [apply IH|].
    destruct (has SUPPORTED_OPTIONS_WITH_VALUES (beforeEquals arg)).
    + destruct (includes "=" arg); cbn [negb]; [apply IH|].
      destruct rest as [|next rest']; [by rewrite app_nil_r|].
      rewrite unsupportedLoop_skip. by apply (IH' next).
    + destruct rest as [|next rest'].
      * simpl. by rewrite <- ?app_assoc.
      * destruct (startsWith "-" next); cbn [negb].
        -- rewrite IH. by rewrite <- ?app_assoc.
        -- rewrite unsupportedLoop_skip, (IH' next rest' eq_refl).
           by rewrite <- ?app_assoc.
Qed.

(** C2: the classifier returns the names (the text before ['='], if any) of
    the dash tokens outside both vocabularies, in the order the tokens
    occur; a supported option with a value takes the next token whatever
    it is, an unsupported option takes it only when it does not start with
    a dash, and a token taken as a value is never reported. *)
Theorem findUnsupportedOptions_spec :
  (forall args, findUnsupportedOptions args = unsupportedSpec args)
  /\ findUnsupportedOptions ["--quiet"] = ["--quiet"]
  /\ findUnsupportedOptions ["--fix"; "src"] = []
  /\ findUnsupportedOptions ["--parser=babel"] = ["--parser"]
  /\ findUnsupportedOptions ["--config=eslint.config.js"] = [].
Proof.
  split; [|by vm_compute].
  intros args. unfold findUnsupportedOptions.
  by rewrite unsupportedLoop_spec.
Qed.

(** ** Pattern extraction *)

Lemma extractLoop_acc args :
  forall skipNext patterns,
    extractLoop args skipNext patterns
    = (patterns ++ fst (extractLoop args skipNext []),
       snd (extractLoop args skipNext [])).
Proof.
  induction args as [|arg rest IH]; intros skip acc; cbn [extractLoop app].
  - by rewrite app_nil_r.
  - destruct skip; [apply IH|].
    destruct (startsWith "-" arg); [apply IH|].
    rewrite (IH false (acc ++ [arg])), (IH false [arg]). cbn [fst snd].
    by rewrite <- app_assoc.
Qed.

Lemma extractLoop_app pre post :
  forall skipNext patterns,
    extractLoop (pre ++ post) skipNext patterns
    = extractLoop post (snd (extractLoop pre skipNext patterns))
        (fst (extractLoop pre skipNext patterns)).
Proof.
  induction pre as [|arg pre IH]; intros skip acc;
    cbn [extractLoop app]; [done|].
  destruct skip; [apply IH|].
  destruct (startsWith "-" arg); apply IH.
Qed.

Lemma optionsWithValues_dash opt :
  opt ∈ optionsWithValues -> startsWith "-" opt = true.
Proof.
  unfold optionsWithValues. rewrite elem_of_list_to_set.
  intros Hin. repeat (apply elem_of_cons in Hin as [->|Hin]; [done|]).
  by apply elem_of_nil in Hin.
Qed.

(** The loop passes over an option of its value set together with the
    token after it, provided the option itself is not owed as a value. *)
Lemma collected_value_option pre opt value post :
  owesValue pre = false ->
  opt ∈ optionsWithValues ->
  collected (pre ++ opt :: value :: post) = collected pre ++ collected post.
Proof.
  unfold owesValue, collected. intros Howes Hopt.
  rewrite extractLoop_app, Howes.
  cbn [extractLoop].
  rewrite (optionsWithValues_dash opt Hopt).
  unfold has. rewrite (bool_decide_eq_true_2 _ Hopt).
  by rewrite extractLoop_acc.
Qed.

Lemma collected_app pre post :
  owesValue pre = false ->
  collected (pre ++ post) = collected pre ++ collected post.
Proof.
  unfold owesValue, collected. intros Howes.
  rewrite extractLoop_app, Howes. by rewrite extractLoop_acc.
Qed.

Lemma extractLoop_patternsSpec args :
  forall patterns,
    fst (extractLoop args false patterns) = patterns ++ patternsSpec args.
Proof.
  induction args as [|arg rest IH IH'] using tokens_ind; intros acc.
  - cbn. by rewrite app_nil_r.
  - cbn [extractLoop patternsSpec].
    destruct (startsWith "-" arg).
    + destruct (has optionsWithValues arg); [|apply IH].
      destruct rest as [|value rest']; [cbn; by rewrite app_nil_r|].
      cbn [extractLoop]. by apply (IH' value rest').
    + rewrite IH. by rewrite <- app_assoc.
Qed.

(** C4: [extractPatterns] never returns an empty sequence; the loop
    collects the tokens that are neither options nor option values, and
    when there is none the result is the current directory alone. *)
Theorem extractPatterns_nonempty :
  forall args,
    0 < List.length (extractPatterns args)
    /\ collected args = patternsSpec args
    /\ extractPatterns args
       = match patternsSpec args with
         | [] => ["."]
         | _ :: _ => patternsSpec args
         end.
Proof.
  intros args. unfold extractPatterns. fold (collected args).
  assert (collected args = patternsSpec args) as ->.
  { unfold collected. by rewrite extractLoop_patternsSpec. }
  destruct (patternsSpec args) as [|p ps]; cbn; repeat split; lia.
Qed.

(** C3 as stated fails: [--parser] belongs to the value options outside
    the supported vocabulary and is followed by a token without a dash,
    yet that token is returned as a pattern, because the loop has already
    taken [--parser] itself as the value of [--config]. *)
Lemma extractPatterns_value_kept :
  let args := ["--config"; "--parser"; "babel"] in
  args !! 1 = Some "--parser"
  /\ "--parser" ∈ unsupportedValueOptions
  /\ args !! 2 = Some "babel"
  /\ startsWith "-" "babel" = false
  /\ extractPatterns args = ["babel"].
Proof.
  split; [reflexivity|].
  split; [by apply (bool_decide_unpack _); vm_compute|].
  repeat split.
Qed.

(** C3, amended: when a value option outside the supported vocabulary is
    reached by the loop as an option (it is not owed as the value of the
    option before it) and is followed by a token without a dash, that
    token is passed over: the patterns are those of the tokens before the
    option followed by those of the tokens after the value, and the result
    is what it would be with the option and its value removed. *)
Theorem extractPatterns_skips_option_value :
  forall pre opt value post,
    owesValue pre = false ->
    opt ∈ unsupportedValueOptions ->
    startsWith "-" value = false ->
    collected (pre ++ opt :: value :: post) = collected pre ++ collected post
    /\ extractPatterns (pre ++ opt :: value :: post)
       = extractPatterns (pre ++ post).
Proof.
  intros pre opt value post Howes Hopt _.
  apply elem_of_difference in Hopt as [Hin _].
  pose proof (collected_value_option pre opt value post Howes Hin) as Hc.
  split; [exact Hc|].
  unfold extractPatterns. fold (collected (pre ++ opt :: value :: post)).
  fold (collected (pre ++ post)).
  by rewrite Hc, collected_app.
Qed.

Lemma extractPatterns_skips_option_value_witness :
  collected ["src"; "--parser"; "babel"; "lib"] = ["src"] ++ ["lib"]
  /\ extractPatterns ["src"; "--parser"; "babel"; "lib"]
     = extractPatterns ["src"; "lib"].
Proof.
  apply (extractPatterns_skips_option_value ["src"] "--parser" "babel" ["lib"]).
  - reflexivity.
  - apply (bool_decide_unpack _). vm_compute. exact I.
  - reflexivity.
Defined.

(** ** The option parser *)

Lemma has_true (set : gset string) x : has set x = true <-> x ∈ set.
Proof. unfold has. apply bool_decide_eq_true. Qed.

Lemma has_false (set : gset string) x : has set x = false <-> x ∉ set.
Proof. unfold has. apply bool_decide_eq_false. Qed.

(** Case analysis on the first label comparison left in the goal. *)
Ltac case_label :=
  match goal with
  | |- context [String.eqb ?a ?b] =>
      destruct (String.eqb_spec a b) as [->|?]
  end.

Lemma has_supported_value_false arg :
  arg <> "-c" -> arg <> "--config" -> arg <> "--cache-location" ->
  arg <> "--cache-strategy" -> arg <> "--max-warnings" -> arg <> "-f" ->
  arg <> "--format" -> arg <> "--ext" -> arg <> "--rule" ->
  has SUPPORTED_OPTIONS_WITH_VALUES arg = false.
Proof.
  intros. apply has_false. unfold SUPPORTED_OPTIONS_WITH_VALUES.
  rewrite elem_of_list_to_set, !elem_of_cons, elem_of_nil. tauto.
Qed.

Section ParserFacts.
Context `{JsonParser}.

Lemma switchCase_default arg next st :
  arg ∉ caseLabels -> switchCase arg next st = Normal (st, false).
Proof.
  unfold caseLabels. rewrite !not_elem_of_cons. intros Hnot.
  unfold switchCase.
  repeat (case_label; [tauto|]); done.
Qed.

(** With a token to read, a case raises nothing, and it runs [++i]
    exactly for the supported options with a value. *)
Lemma switchCase_defined arg value st :
  exists st', switchCase arg (Defined value) st
              = Normal (st', has SUPPORTED_OPTIONS_WITH_VALUES arg).
Proof.
  unfold switchCase.
  repeat (case_label; cbn [orb];
          [try destruct (parseRuleValue value) as [[? ?]|]; by eexists|]).
  rewrite has_supported_value_false by done. by eexists.
Qed.

Lemma switchCase_flag arg st :
  has SUPPORTED_OPTIONS_WITH_VALUES arg = false ->
  exists st', forall next, switchCase arg next st = Normal (st', false).
Proof.
  intros Hv. unfold switchCase.
  repeat (case_label; cbn [orb];
          [first [vm_compute in Hv; discriminate Hv | by eexists]|]).
  by eexists.
Qed.

Lemma switchCase_undefined arg st :
  arg <> "--ext" -> arg <> "--rule" ->
  exists st', switchCase arg Undefined st
              = Normal (st', has SUPPORTED_OPTIONS_WITH_VALUES arg).
Proof.
  intros Hext Hrule. unfold switchCase.
  repeat (case_label; cbn [orb]; [done || by eexists|]).
  rewrite has_supported_value_false by done. by eexists.
Qed.

Lemma switchCase_extensions arg next st st' consumed :
  arg <> "--ext" ->
  switchCase arg next st = Normal (st', consumed) ->
  st_extensions st' = st_extensions st.
Proof.
  intros Hext. unfold switchCase.
  repeat (case_label; cbn [orb]; [try done; try by intros [= <- _]|]).
  - destruct next as [|value]; [done|].
    destruct (parseRuleValue value) as [[? ?]|]; by intros [= <- _].
  - by intros [= <- _].
Qed.

Lemma pendingOption_In args opt :
  pendingOption args = Some opt -> opt ∈ args.
Proof.
  induction args as [|arg rest IH IH'] using tokens_ind; [done|].
  cbn [pendingOption].
  destruct (has SUPPORTED_OPTIONS_WITH_VALUES arg).
  - destruct rest as [|value rest'].
    + intros [= ->]. by left.
    + intros Hp. right. right. by apply (IH' value rest').
  - intros Hp. right. by apply IH.
Qed.

(** The loop returns unless it ends on [--ext] or [--rule] with no
    token left to read. *)
Lemma parseLoop_normal args :
  pendingOption args <> Some "--ext" ->
  pendingOption args <> Some "--rule" ->
  forall st, exists st', parseLoop args st = Normal st'.
Proof.
  induction args as [|arg rest IH IH'] using tokens_ind;
    intros Hext Hrule st; [by eexists|].
  cbn [parseLoop pendingOption] in *.
  destruct (has SUPPORTED_OPTIONS_WITH_VALUES arg) eqn:Hv.
  - destruct rest as [|value rest'].
    + destruct (switchCase_undefined arg st) as [st' ->]; [congruence..|].
      rewrite Hv. by eexists.
    + destruct (switchCase_defined arg value st) as [st' ->].
      rewrite Hv. by apply (IH' value rest').
  - destruct (switchCase_flag arg st Hv) as [st' ->]. by apply IH.
Qed.

Lemma parseLoop_raises args :
  pendingOption args = Some "--ext" \/ pendingOption args = Some "--rule" ->
  forall st, parseLoop args st = Throw typeError.
Proof.
  induction args as [|arg rest IH IH'] using tokens_ind;
    intros Hp st; [by destruct Hp|].
  cbn [parseLoop pendingOption] in *.
  destruct (has SUPPORTED_OPTIONS_WITH_VALUES arg) eqn:Hv.
  - destruct rest as [|value rest'].
    + by destruct Hp as [[= ->]|[= ->]].
    + destruct (switchCase_defined arg value st) as [st' ->].
      rewrite Hv. by apply (IH' value rest').
  - destruct (switchCase_flag arg st Hv) as [st' ->]. by apply IH.
Qed.

(** A run of tokens that the parser reads whole can be parsed on its
    own: the loop resumes after it in the state it leaves. *)
Lemma parseLoop_app pre post :
  pendingOption pre = None ->
  forall st, exists st',
    parseLoop pre st = Normal st'
    /\ parseLoop (pre ++ post) st = parseLoop post st'.
Proof.
  induction pre as [|arg rest IH IH'] using tokens_ind;
    intros Hp st; [by eexists|].
  cbn [parseLoop pendingOption app] in *.
  destruct (has SUPPORTED_OPTIONS_WITH_VALUES arg) eqn:Hv.
  - destruct rest as [|value rest']; [done|]. cbn [app].
    destruct (switchCase_defined arg value st) as [st' ->].
    rewrite Hv. by apply (IH' value rest').
  - destruct (switchCase_flag arg st Hv) as [st' Hst'].
    rewrite !Hst'. by apply IH.
Qed.

Lemma parseLoop_extensions args :
  "--ext" ∉ args ->
  forall st st', parseLoop args st = Normal st' ->
                 st_extensions st' = st_extensions st.
Proof.
  induction args as [|arg rest IH IH'] using tokens_ind;
    intros Hnot st st'; [by intros [= <-]|].
  apply not_elem_of_cons in Hnot as [Harg Hrest].
  cbn [parseLoop].
  destruct (switchCase arg _ st) as [[st1 consumed]|] eqn:Hs; [|done].
  apply switchCase_extensions in Hs; [|done].
  destruct consumed.
  - destruct rest as [|value rest'].
    + intros [= <-]. done.
    + apply not_elem_of_cons in Hrest as [_ Hrest'].
      intros Hl. rewrite <- Hs. by apply (IH' value rest' eq_refl Hrest').
  - intros Hl. rewrite <- Hs. by apply IH.
Qed.
End ParserFacts.

(** ** Extensions *)

Section Extensions.
Context `{JsonParser}.

Lemma parseLoop_ext value rest st :
  parseLoop ("--ext" :: value :: rest) st
  = parseLoop rest (setExtensions (dotted <$> split "," value) st).
Proof. reflexivity. Qed.

Lemma parseESLintOptions_ext pre value post :
  pendingOption pre = None ->
  "--ext" ∉ post ->
  pendingOption post <> Some "--rule" ->
  exists parsed,
    parseESLintOptions (pre ++ "--ext" :: value :: post) = Normal parsed
    /\ extensions parsed = dotted <$> split "," value.
Proof.
  intros Hpre Hnot Hrule. unfold parseESLintOptions.
  destruct (parseLoop_app pre ("--ext" :: value :: post) Hpre initialState)
    as (st1 & _ & ->).
  rewrite parseLoop_ext.
  destruct (parseLoop_normal post)
    with (st := setExtensions (dotted <$> split "," value) st1)
    as [st2 Hst2]; [|done|].
  { intros Hp. by apply pendingOption_In in Hp. }
  rewrite Hst2. eexists. split; [reflexivity|]. cbn [extensions].
  rewrite (parseLoop_extensions post Hnot _ _ Hst2).
  cbn [st_extensions setExtensions].
  rewrite length_fmap.
  pose proof (split_nonempty "," value).
  by destruct (split "," value).
Qed.

Lemma parseESLintOptions_no_ext args :
  "--ext" ∉ args ->
  pendingOption args <> Some "--rule" ->
  exists parsed,
    parseESLintOptions args = Normal parsed
    /\ extensions parsed = DEFAULT_EXTENSIONS.
Proof.
  intros Hnot Hrule. unfold parseESLintOptions.
  destruct (parseLoop_normal args) with (st := initialState)
    as [st Hst]; [|done|].
  { intros Hp. by apply pendingOption_In in Hp. }
  rewrite Hst. eexists. split; [reflexivity|]. cbn [extensions].
  by rewrite (parseLoop_extensions args Hnot _ _ Hst).
Qed.

(** C5, amended: when [--ext] is read as an option (the tokens before
    it are read whole), no [--ext] token follows its value, and the
    tokens do not end on a [--rule] without value, the parser returns and
    its extensions are the value split at the commas, each entry with a
    leading dot put in front unless it has one; the default list plays
    no part.  Without any [--ext] token (and no [--rule] without value at
    the end) the extensions are the default eight. *)
Theorem parseESLintOptions_extensions :
  (forall pre value post,
      pendingOption pre = None ->
      "--ext" ∉ post ->
      pendingOption post <> Some "--rule" ->
      exists parsed,
        parseESLintOptions (pre ++ "--ext" :: value :: post) = Normal parsed
        /\ extensions parsed = dotted <$> split "," value)
  /\ (forall args,
        "--ext" ∉ args ->
        pendingOption args <> Some "--rule" ->
        exists parsed,
          parseESLintOptions args = Normal parsed
          /\ extensions parsed = DEFAULT_EXTENSIONS)
  /\ (forall e, dotted e = if startsWith "." e then e else "." +:+ e)
  /\ match parseESLintOptions ["--ext"; ".ts,.tsx"] with
     | Normal parsed => extensions parsed = [".ts"; ".tsx"]
     | Throw _ => False
     end
  /\ match parseESLintOptions ["--ext"; "js,jsx"] with
     | Normal parsed => extensions parsed = [".js"; ".jsx"]
     | Throw _ => False
     end.
Proof.
  split; [exact parseESLintOptions_ext|].
  split; [exact parseESLintOptions_no_ext|].
  split; [done|]. split; reflexivity.
Qed.
End Extensions.

(** C5 as stated fails: the sequence holds [--ext] followed by a list, but
    [-c] has taken [--ext] as its value, so the extensions stay the
    default ones. *)
Lemma parseESLintOptions_ext_as_value :
  let args := ["-c"; "--ext"; "ts"] in
  args !! 1 = Some "--ext"
  /\ args !! 2 = Some "ts"
  /\ exists parsed,
       @parseESLintOptions noJson args = Normal parsed
       /\ overrideConfigFile (eslintOptions parsed) = Some (Defined "--ext")
       /\ extensions parsed = DEFAULT_EXTENSIONS
       /\ extensions parsed <> dotted <$> split "," "ts".
Proof.
  split; [reflexivity|]. split; [reflexivity|].
  eexists. split; [reflexivity|]. split; [reflexivity|].
  split; [reflexivity|]. by vm_compute.
Qed.

Lemma parseESLintOptions_extensions_witness :
  (exists parsed,
      @parseESLintOptions noJson (["src"] ++ "--ext" :: "ts,.tsx" :: ["--fix"])
      = Normal parsed
      /\ extensions parsed = dotted <$> split "," "ts,.tsx")
  /\ (exists parsed,
        @parseESLintOptions noJson ["--fix"; "src"] = Normal parsed
        /\ extensions parsed = DEFAULT_EXTENSIONS).
Proof.
  destruct (@parseESLintOptions_extensions noJson) as (Hext & Hnone & _).
  split.
  - apply Hext; [reflexivity| |by vm_compute].
    apply (bool_decide_unpack _). by vm_compute.
  - apply Hnone; [|by vm_compute].
    apply (bool_decide_unpack _). by vm_compute.
Defined.

(** ** Options written with ['='] *)

Lemma supported_value_shape opt :
  opt ∈ SUPPORTED_OPTIONS_WITH_VALUES ->
  startsWith "-" opt = true /\ includes "=" opt = false
  /\ has SUPPORTED_FLAGS opt = false.
Proof.
  unfold SUPPORTED_OPTIONS_WITH_VALUES. rewrite elem_of_list_to_set.
  intros Hin. repeat (apply elem_of_cons in Hin as [->|Hin]; [by vm_compute|]).
  by apply elem_of_nil in Hin.
Qed.

Lemma supported_flag_shape opt :
  opt ∈ SUPPORTED_FLAGS ->
  startsWith "-" opt = true /\ includes "=" opt = false
  /\ has SUPPORTED_OPTIONS_WITH_VALUES opt = false.
Proof.
  unfold SUPPORTED_FLAGS. rewrite elem_of_list_to_set.
  intros Hin. repeat (apply elem_of_cons in Hin as [->|Hin]; [by vm_compute|]).
  by apply elem_of_nil in Hin.
Qed.

Lemma caseLabels_no_equals arg : arg ∈ caseLabels -> includes "=" arg = false.
Proof.
  unfold caseLabels.
  intros Hin. repeat (apply elem_of_cons in Hin as [->|Hin]; [by vm_compute|]).
  by apply elem_of_nil in Hin.
Qed.

(** The description of the classifier splits at any point the parser
    reads up to. *)
Lemma unsupportedSpec_app pre post :
  pendingOption pre = None ->
  unsupportedSpec (pre ++ post) = unsupportedSpec pre ++ unsupportedSpec post.
Proof.
  induction pre as [|arg rest IH IH'] using tokens_ind; intros Hp; [done|].
  cbn [pendingOption] in Hp. cbn [unsupportedSpec app].
  destruct (has SUPPORTED_OPTIONS_WITH_VALUES arg) eqn:Hv.
  - apply has_true in Hv. destruct (supported_value_shape arg Hv) as (-> & He & Hf).
    rewrite (beforeEquals_no_equals arg He), Hf, He.
    rewrite (proj2 (has_true _ _) Hv).
    destruct rest as [|value rest']; [done|]. by apply (IH' value rest').
  - destruct (startsWith "-" arg) eqn:Hd; [|by apply IH].
    destruct (has SUPPORTED_FLAGS (beforeEquals arg)); [by apply IH|].
    destruct (has SUPPORTED_OPTIONS_WITH_VALUES (beforeEquals arg)) eqn:Hn.
    + destruct (includes "=" arg) eqn:He; [by apply IH|].
      rewrite (beforeEquals_no_equals arg He) in Hn. congruence.
    + cbn [app]. f_equal.
      destruct rest as [|next rest']; cbn [app].
      * destruct post as [|next post']; [done|]. cbn [unsupportedSpec].
        by destruct (startsWith "-" next).
      * destruct (startsWith "-" next) eqn:Hnext; [by apply IH|].
        apply (IH' next rest' eq_refl).
        cbn [pendingOption] in Hp.
        destruct (has SUPPORTED_OPTIONS_WITH_VALUES next) eqn:Hvn; [|done].
        apply has_true, supported_value_shape in Hvn as (Hdash & _). congruence.
Qed.

Section Assignments.
Context `{JsonParser}.

(** A token of the form [name=value] whose name is in a supported
    vocabulary: what both loops make of it where they read it. *)
Lemma assignment_shape name value :
  name ∈ SUPPORTED_FLAGS ∪ SUPPORTED_OPTIONS_WITH_VALUES ->
  let arg := name +:+ "=" +:+ value in
  startsWith "-" arg = true /\ includes "=" arg = true
  /\ beforeEquals arg = name /\ arg ∉ caseLabels.
Proof.
  intros Hname arg.
  assert (startsWith "-" name = true /\ includes "=" name = false)
    as [Hdash Heq].
  { apply elem_of_union in Hname as [Hf|Hv].
    - by destruct (supported_flag_shape name Hf) as (? & ? & _).
    - by destruct (supported_value_shape name Hv) as (? & ? & _). }
  assert (includes "=" arg = true) as Hinc.
  { unfold arg. rewrite includes_append. cbn. apply orb_true_r. }
  split; [by apply startsWith_append|]. split; [exact Hinc|].
  split; [by apply beforeEquals_assignment|].
  intros Hlabel. apply caseLabels_no_equals in Hlabel. congruence.
Qed.

Lemma unsupportedSpec_assignment name value post :
  name ∈ SUPPORTED_FLAGS ∪ SUPPORTED_OPTIONS_WITH_VALUES ->
  unsupportedSpec ((name +:+ "=" +:+ value) :: post) = unsupportedSpec post.
Proof.
  intros Hname.
  destruct (assignment_shape name value Hname) as (Hd & He & Hn & _).
  cbn [unsupportedSpec]. rewrite Hd, Hn, He.
  destruct (has SUPPORTED_FLAGS name) eqn:Hf; [done|].
  apply elem_of_union in Hname as [Hin|Hin].
  - apply has_true in Hin. congruence.
  - apply has_true in Hin. by rewrite Hin.
Qed.

(** C10, amended: a supported option written [name=value], at a place
    where the parser reads it as an option, is not reported by the
    classifier and changes nothing in the parse: the unsupported list and
    the parsed options (or the exception) are those of the sequence
    without the token. *)
Theorem assignment_form_ignored :
  forall pre name value post,
    pendingOption pre = None ->
    name ∈ SUPPORTED_FLAGS ∪ SUPPORTED_OPTIONS_WITH_VALUES ->
    let arg := name +:+ "=" +:+ value in
    findUnsupportedOptions (pre ++ arg :: post)
    = findUnsupportedOptions (pre ++ post)
    /\ parseESLintOptions (pre ++ arg :: post)
       = parseESLintOptions (pre ++ post).
Proof.
  intros pre name value post Hpre Hname arg. split.
  - unfold findUnsupportedOptions.
    rewrite !unsupportedLoop_spec, !unsupportedSpec_app by done.
    subst arg. by rewrite unsupportedSpec_assignment.
  - destruct (assignment_shape name value Hname) as (_ & _ & _ & Hlabel).
    unfold parseESLintOptions.
    destruct (parseLoop_app pre (arg :: post) Hpre initialState)
      as (st & Hst & ->).
    destruct (parseLoop_app pre post Hpre initialState) as (st' & Hst' & ->).
    assert (st' = st) as -> by congruence.
    cbn [parseLoop]. by rewrite (switchCase_default arg _ st Hlabel).
Qed.
End Assignments.

(** C10 as stated fails: [--format=json] is a supported option in the
    ['='] form and the classifier reports nothing, but [--config] takes the
    token as its value, so removing the token changes the parsed options. *)
Lemma assignment_form_as_value :
  let args := ["--config"; "--format=json"] in
  findUnsupportedOptions args = []
  /\ (exists parsed,
        @parseESLintOptions noJson args = Normal parsed
        /\ overrideConfigFile (eslintOptions parsed)
           = Some (Defined "--format=json"))
  /\ (exists parsed,
        @parseESLintOptions noJson ["--config"] = Normal parsed
        /\ overrideConfigFile (eslintOptions parsed) = Some Undefined)
  /\ @parseESLintOptions noJson args <> @parseESLintOptions noJson ["--config"].
Proof.
  split; [reflexivity|].
  split; [eexists; split; reflexivity|].
  split; [eexists; split; reflexivity|].
  by vm_compute.
Qed.

Lemma assignment_form_ignored_witness :
  findUnsupportedOptions (["src"] ++ ("--config" +:+ "=" +:+ "a.js") :: ["--fix"])
  = findUnsupportedOptions (["src"] ++ ["--fix"])
  /\ @parseESLintOptions noJson
       (["src"] ++ ("--config" +:+ "=" +:+ "a.js") :: ["--fix"])
     = @parseESLintOptions noJson (["src"] ++ ["--fix"]).
Proof.
  apply (@assignment_form_ignored noJson ["src"] "--config" "a.js" ["--fix"]).
  - reflexivity.
  - apply (bool_decide_unpack _). by vm_compute.
Defined.

(** ** Rule overrides *)


Section Rules.
Context `{JsonParser}.










End Rules.


(** ** Chunks *)



Lemma chunksOf_drop files i :
  i < List.length files ->
  chunksOf (drop i files)
  = sliceList i (i + BATCH_SIZE) files :: chunksOf (drop (i + BATCH_SIZE) files).
Proof.
  intros Hi. destruct (drop i files) as [|file rest] eqn:Hdrop.
  - apply (f_equal List.length) in Hdrop. rewrite length_drop in Hdrop.
    cbn in Hdrop. lia.
  - simp chunksOf. rewrite <- Hdrop. unfold sliceList.
    rewrite drop_drop. do 2 f_equal. lia.
Qed.

Lemma chunksOf_drop_end files i :
  ~ i < List.length files -> chunksOf (drop i files) = [].
Proof.
  intros Hi. rewrite drop_ge by lia. by simp chunksOf.
Qed.


Section Batches.
Context `{Host}.

Lemma lint_run paths tr :
  lint paths tr
  = (lintFiles paths tr, tr ++ [LintFiles paths (lintFiles paths tr)]).
Proof. reflexivity. Qed.

(** An increment reaches the widget exactly when the bar is started. *)
Lemma barIncrement_run count progressBar tr :
  barIncrement count progressBar tr
  = (Normal tt,
     tr ++ match progressBar with
           | Bar true => [BarIncrement count]
           | _ => []
           end).
Proof.
  unfold barIncrement, when, emit, mret, M_ret.
  destruct progressBar as [|[]]; rewrite ?app_nil_r; reflexivity.
Qed.

(** The loop by index is the walk over the chunks. *)
Lemma batchLoop_lintChunks files progressBar i allResults tr :
  batchLoop files progressBar i allResults tr
  = lintChunks progressBar (chunksOf (drop i files)) allResults tr.
Proof.
  revert tr.
  funelim (batchLoop files progressBar i allResults); intros tr.
  - rewrite chunksOf_drop by done. cbn [lintChunks].
    unfold mbind, M_bind.
    destruct (lint _ tr) as [[results|e] tr1]; [|done].
    destruct (barIncrement _ _ tr1) as [[[]|e] tr2]; [|done].
    match goal with
    | IH : forall results : list LintResult, _ |- _ =>
        exact (IH results tt tr1 tr2)
    end.
  - by rewrite chunksOf_drop_end.
Qed.


End Batches.


(** ** The empty file list and the unsupported options *)

Section Delegation.
Context `{Host}.

Lemma addsQuiet_ret {A : Type} (a : A) : addsQuiet (mret a).
Proof. intros tr. exists []. by rewrite app_nil_r. Qed.

Lemma addsQuiet_lift {A : Type} (c : Completion A) : addsQuiet (lift c).
Proof. intros tr. exists []. by rewrite app_nil_r. Qed.

Lemma addsQuiet_bind {A B : Type} (m : M A) (k : A -> M B) :
  addsQuiet m -> (forall a, addsQuiet (k a)) -> addsQuiet (m ≫= k).
Proof.
  intros Hm Hk tr. unfold mbind, M_bind.
  destruct (Hm tr) as (evs & Hevs & Hq).
  destruct (m tr) as [[a|e] tr1]; cbn [snd] in Hevs; subst tr1.
  - destruct (Hk a (tr ++ evs)) as (evs' & -> & Hq').
    exists (evs ++ evs'). split; [by rewrite app_assoc|].
    by apply Forall_app.
  - by exists evs.
Qed.

Lemma addsQuiet_tryCatch {A : Type} (m : M A) (handler : string -> M A) :
  addsQuiet m -> (forall e, addsQuiet (handler e)) ->
  addsQuiet (tryCatch m handler).
Proof.
  intros Hm Hh tr. unfold tryCatch.
  destruct (Hm tr) as (evs & Hevs & Hq).
  destruct (m tr) as [[a|e] tr1]; cbn [snd] in Hevs; subst tr1.
  - by exists evs.
  - destruct (Hh e (tr ++ evs)) as (evs' & -> & Hq').
    exists (evs ++ evs'). split; [by rewrite app_assoc|].
    by apply Forall_app.
Qed.

Lemma addsQuiet_call {A : Type} ev (answer : list Event -> Completion A) :
  quiet ev = true -> addsQuiet (call ev answer).
Proof. intros Hq tr. exists [ev]. split; [done|]. by constructor. Qed.

Lemma addsQuiet_emit ev : quiet ev = true -> addsQuiet (emit ev).
Proof. intros Hq tr. exists [ev]. split; [done|]. by constructor. Qed.

Lemma addsQuiet_when b (m : M unit) : addsQuiet m -> addsQuiet (when b m).
Proof. destruct b; [done|]. intros _. apply addsQuiet_ret. Qed.

Lemma addsQuiet_filterIgnored candidateFiles :
  forall files, addsQuiet (filterIgnored candidateFiles files).
Proof.
  induction candidateFiles as [|file rest IH]; intros files.
  - apply addsQuiet_ret.
  - cbn [filterIgnored]. apply addsQuiet_bind; [by apply addsQuiet_call|].
    intros ignored. apply IH.
Qed.

Lemma addsQuiet_discovery args : addsQuiet (discovery args).
Proof.
  unfold discovery, getFilesToLint.
  repeat first
    [ apply addsQuiet_bind; [|intros ?]
    | apply addsQuiet_lift
    | apply addsQuiet_ret
    | apply addsQuiet_when
    | apply addsQuiet_tryCatch; [|intros ?]
    | apply addsQuiet_filterIgnored
    | by apply addsQuiet_call
    | by apply addsQuiet_emit ].
Qed.

Lemma addsQuiet_finish results format maxWarnings :
  addsQuiet (finish results format maxWarnings).
Proof.
  unfold finish.
  repeat first
    [ apply addsQuiet_bind; [|intros ?]
    | apply addsQuiet_ret
    | by apply addsQuiet_call ].
Qed.

(** With an empty filtered list the [try] block goes on with one lint
    call on the patterns and the formatting of its result. *)
Lemma runWithAPIBody_empty args tr parsed tr1 :
  discovery args tr = (Normal (parsed, []), tr1) ->
  runWithAPIBody args tr
  = (results ← lint (extractPatterns args);
     finish results (format parsed) (maxWarnings parsed)) tr1.
Proof.
  unfold discovery, runWithAPIBody. unfold mbind, M_bind.
  destruct (lift (parseESLintOptions args) tr) as [[parsed'|e] tr2]; [|done].
  destruct (call _ _ tr2) as [[[]|e] tr3]; [|done].
  destruct (when _ _ tr3) as [[[]|e] tr4]; [|done].
  destruct (getFilesToLint _ _ tr4) as [[candidateFiles|e] tr5]; [|done].
  destruct (filterIgnored _ _ tr5) as [[files|e] tr6]; [|done].
  destruct (when _ _ tr6) as [[[]|e] tr7]; [|done].
  unfold mret, M_ret. intros [= -> -> ->]. done.
Qed.

Lemma runWithAPI_loaded args tr :
  importESLint tr = true ->
  runWithAPI args tr
  = tryCatch (runWithAPIBody args)
      (fun error =>
         when (truthy (processEnv !! "DEBUG"))
           (emit (ConsoleError
                    ("[eslint-progress-bar] ESLint API error: " +:+ error))) ;;
         mret None)
      (tr ++ [ImportESLint]).
Proof.
  intros Hload. unfold runWithAPI, loadESLint, mbind, M_bind.
  by rewrite Hload.
Qed.

Lemma addsQuiet_handler error :
  addsQuiet
    (when (truthy (processEnv !! "DEBUG"))
       (emit (ConsoleError
                ("[eslint-progress-bar] ESLint API error: " +:+ error))) ;;
     mret (@None RunResult)).
Proof.
  apply addsQuiet_bind; [|intros ?; apply addsQuiet_ret].
  apply addsQuiet_when. by apply addsQuiet_emit.
Qed.

(** C8: when the filtered file list is empty, the enhanced path calls
    the engine's lint operation once, on the extracted patterns (which
    are never empty); every other event of the run is neither a lint
    call nor a call of the progress widget; and when the call, the
    loading of the formatter and the formatting return, the result is
    the formatted text with the exit code computed from the summed
    error and warning counts of what the call returned. *)
Theorem runWithAPI_empty_list :
  forall args tr parsed tr1,
    importESLint tr = true ->
    discovery args (tr ++ [ImportESLint]) = (Normal (parsed, []), tr1) ->
    let patterns := extractPatterns args in
    let outcome := lintFiles patterns tr1 in
    0 < List.length patterns
    /\ (exists before after,
          tr1 = tr ++ before
          /\ snd (runWithAPI args tr)
             = tr ++ before ++ LintFiles patterns outcome :: after
          /\ Forall (fun ev => quiet ev = true) before
          /\ Forall (fun ev => quiet ev = true) after)
    /\ (forall results text,
          outcome = Normal results ->
          loadFormatter (format parsed) (tr1 ++ [LintFiles patterns outcome])
          = Normal tt ->
          formatResults results
            (tr1 ++ [LintFiles patterns outcome;
                     LoadFormatter (format parsed)])
          = Normal text ->
          runWithAPI args tr
          = (Normal
               (Some {| exitCode :=
                          calculateExitCode (sumErrors results)
                            (sumWarnings results) (maxWarnings parsed);
                        output := text;
                        errorOutput := EmptyString |}),
             tr1 ++ [LintFiles patterns outcome;
                     LoadFormatter (format parsed);
                     Format results])).
Proof.
  intros args tr parsed tr1 Hload Hdisc patterns outcome.
  split.
  { unfold patterns, extractPatterns.
    destruct (fst (extractLoop args false [])); cbn; lia. }
  rewrite (runWithAPI_loaded args tr Hload). unfold tryCatch.
  rewrite (runWithAPIBody_empty _ _ _ _ Hdisc).
  fold patterns. unfold mbind at 1 3, M_bind at 1 3.
  rewrite lint_run. fold outcome.
  split.
  - destruct (addsQuiet_discovery args (tr ++ [ImportESLint]))
      as (evs & Hevs & Hq).
    rewrite Hdisc in Hevs. cbn [snd] in Hevs.
    exists (ImportESLint :: evs).
    assert (tr1 = tr ++ ImportESLint :: evs) as Htr1.
    { rewrite Hevs, <- app_assoc. done. }
    assert (Forall (fun ev => quiet ev = true) (ImportESLint :: evs)) as Hq'.
    { by constructor. }
    destruct outcome as [results|error].
    + destruct (addsQuiet_finish results (format parsed) (maxWarnings parsed)
                  (tr1 ++ [LintFiles patterns (Normal results)]))
        as (after & Hafter & Hqa).
      destruct (finish _ _ _ _) as [[result|error] tr2];
        cbn [snd] in Hafter; subst tr2.
      * exists after. split; [done|]. split; [|done]. cbn [snd].
        rewrite Htr1, <- !app_assoc. done.
      * destruct (addsQuiet_handler error
                    ((tr1 ++ [LintFiles patterns (Normal results)]) ++ after))
          as (evs' & Hevs' & Hq'').
        exists (after ++ evs'). split; [done|].
        split; [|split; [done|by apply Forall_app]].
        rewrite Hevs', Htr1, <- !app_assoc. done.
    + destruct (addsQuiet_handler error
                  (tr1 ++ [LintFiles patterns (Throw error)]))
        as (evs' & Hevs' & Hq'').
      exists evs'. split; [done|]. split; [|done].
      rewrite Hevs', Htr1, <- !app_assoc. done.
  - intros results text Hlint Hformatter Htext.
    rewrite Hlint in *. unfold finish, mbind, M_bind, call.
    rewrite Hformatter. rewrite <- app_assoc. cbn [app].
    rewrite Htext. unfold mret, M_ret. by rewrite <- app_assoc.
Qed.

Lemma runWithSpawn_run args tr :
  runWithSpawn args tr
  = (Normal (spawnResult (spawn ("eslint" :: args) tr)),
     tr ++ [Spawn "npx" ("eslint" :: args)]).
Proof. unfold runWithSpawn, spawnResult. by destruct (spawn _ tr). Qed.

Lemma relay_run result tr :
  relay result tr = (Normal (exitCode result), tr ++ relayed result).
Proof.
  unfold relay, relayed, when, emit, mbind, M_bind, mret, M_ret.
  destruct (nonEmpty (output result)), (nonEmpty (errorOutput result));
    cbn [app]; by rewrite <- ?app_assoc, ?app_nil_r.
Qed.


End Delegation.

Lemma runWithAPI_empty_list_witness :
  0 < List.length (extractPatterns ["src"])
  /\ fst (@runWithAPI noJson exampleHost ["src"] [])
     = Normal (Some {| exitCode := 0; output := "report";
                       errorOutput := EmptyString |}).
Proof.
  edestruct (@runWithAPI_empty_list noJson exampleHost ["src"] [])
    as (Hpatterns & _ & Hresult).
  - reflexivity.
  - reflexivity.
  - split; [exact Hpatterns|].
    specialize (Hresult _ _ eq_refl eq_refl eq_refl).
    rewrite Hresult. reflexivity.
Defined.


(** ** The cases of the repository's test suite *)

Example test_extractPatterns :
  extractPatterns ["src"; "lib"] = ["src"; "lib"]
  /\ extractPatterns [] = ["."]
  /\ extractPatterns ["--fix"] = ["."]
  /\ extractPatterns ["--cache"; "--fix"; "src"] = ["src"]
  /\ extractPatterns ["-c"; "config.js"; "src"] = ["src"]
  /\ extractPatterns ["src"; "-f"; "json"] = ["src"]
  /\ extractPatterns ["--max-warnings"; "10"; "src"] = ["src"]
  /\ extractPatterns
       ["--fix"; "-c"; "eslint.config.js"; "--max-warnings"; "0"; "src";
        "lib"; "--cache"]
     = ["src"; "lib"]
  /\ extractPatterns ["*.js"; "src/**/*.ts"] = ["*.js"; "src/**/*.ts"].
Proof. repeat split. Qed.

Example test_findUnsupportedOptions :
  findUnsupportedOptions ["--cache"; "--max-warnings"; "0"] = []
  /\ findUnsupportedOptions ["-f"; "json"; "-c"; "config.js"] = []
  /\ findUnsupportedOptions ["--debug"] = ["--debug"]
  /\ findUnsupportedOptions ["--parser"; "babel"] = ["--parser"]
  /\ findUnsupportedOptions ["--ignore-path"; ".gitignore"] = ["--ignore-path"]
  /\ findUnsupportedOptions ["--quiet"; "--debug"; "src"] = ["--quiet"; "--debug"]
  /\ findUnsupportedOptions ["--fix"; "--quiet"; "--cache"] = ["--quiet"]
  /\ findUnsupportedOptions ["src"; "lib"; "*.ts"] = [].
Proof. repeat split. Qed.

Section Tests.
Context `{JsonParser}.

Example test_parse_defaults :
  parseESLintOptions []
  = Normal {| eslintOptions := noOptions; maxWarnings := None;
              format := Defined "stylish";
              extensions := DEFAULT_EXTENSIONS |}.
Proof. reflexivity. Qed.

Example test_parse_multiple :
  eslintOptions
    <$> match parseESLintOptions
                ["--fix"; "--cache"; "--cache-location"; "/tmp/eslint";
                 "-c"; "my.config.js"] with
        | Normal parsed => Some parsed
        | Throw _ => None
        end
  = Some {| fix_ := Some true;
            overrideConfigFile := Some (Defined "my.config.js");
            cache := Some true;
            cacheLocation := Some (Defined "/tmp/eslint");
            cacheStrategy := None;
            errorOnUnmatchedPattern := None;
            overrideConfig := None |}.
Proof. reflexivity. Qed.

Example test_parse_unknown :
  parseESLintOptions ["--unknown-flag"; "src"] = parseESLintOptions [].
Proof. reflexivity. Qed.

Example test_parse_maxWarnings :
  maxWarnings
    <$> match parseESLintOptions ["--max-warnings"; "10"] with
        | Normal parsed => Some parsed
        | Throw _ => None
        end
  = Some (Some (Int 10)).
Proof. reflexivity. Qed.

Example test_parse_rules :
  match parseESLintOptions
          ["--rule"; "no-console:warn"; "--rule"; "no-debugger:error"] with
  | Normal parsed =>
      overrideConfig (eslintOptions parsed)
      = Some (<["no-debugger" := Severity 2]>
                {[ "no-console" := Severity 1 ]})
  | Throw _ => False
  end.
Proof. reflexivity. Qed.

(** A threshold of zero: clean passes, one warning fails. *)
Example test_threshold_zero :
  match parseESLintOptions ["--max-warnings"; "0"; "."] with
  | Normal parsed =>
      calculateExitCode 0 0 (maxWarnings parsed) = 0%Z
      /\ calculateExitCode 0 1 (maxWarnings parsed) = 1%Z
  | Throw _ => False
  end.
Proof. split; reflexivity. Qed.

End Tests.

(** * Further properties *)

(** ** The parser beyond the claims *)

Lemma caseLabels_dash arg : arg ∈ caseLabels -> startsWith "-" arg = true.
Proof.
  unfold caseLabels.
  intros Hin. repeat (apply elem_of_cons in Hin as [->|Hin]; [done|]).
  by apply elem_of_nil in Hin.
Qed.

Lemma startsWith_dotted e : startsWith "." (dotted e) = true.
Proof. unfold dotted. by destruct (startsWith "." e) eqn:E. Qed.

Section ParserMore.
Context `{JsonParser}.

(** X1: the parser raises exactly when the last token it reads as an
    option is [--ext] or [--rule] and no token is left for its value; the
    exception is then the type error. *)
Theorem parseESLintOptions_raises_iff :
  forall args,
    ((exists e, parseESLintOptions args = Throw e)
     <-> (pendingOption args = Some "--ext"
          \/ pendingOption args = Some "--rule"))
    /\ (forall e, parseESLintOptions args = Throw e -> e = typeError).
Proof.
  intros args. unfold parseESLintOptions.
  destruct (decide (pendingOption args = Some "--ext")) as [Hext|Hext];
    [|destruct (decide (pendingOption args = Some "--rule")) as [Hrule|Hrule]].
  - rewrite (parseLoop_raises args (or_introl Hext)).
    split; [|by intros e [= <-]]. split; [by left|by eexists].
  - rewrite (parseLoop_raises args (or_intror Hrule)).
    split; [|by intros e [= <-]]. split; [by right|by eexists].
  - destruct (parseLoop_normal args Hext Hrule initialState) as [st ->].
    split; [|done]. split; [by intros [e ?]|by intros [?|?]].
Qed.

(** X2: a token that is none of the option names of the [switch], in
    particular any token without a leading dash, changes nothing in the
    parse when it is read at an option position. *)
Theorem parseESLintOptions_ignores_token :
  forall pre arg post,
    pendingOption pre = None ->
    startsWith "-" arg = false \/ arg ∉ caseLabels ->
    parseESLintOptions (pre ++ arg :: post) = parseESLintOptions (pre ++ post).
Proof.
  intros pre arg post Hpre Harg.
  assert (arg ∉ caseLabels) as Hlabel.
  { destruct Harg as [Hdash|Hnot]; [|done].
    intros Hin. apply caseLabels_dash in Hin. congruence. }
  unfold parseESLintOptions.
  destruct (parseLoop_app pre (arg :: post) Hpre initialState)
    as (st & Hst & ->).
  destruct (parseLoop_app pre post Hpre initialState) as (st' & Hst' & ->).
  assert (st' = st) as -> by congruence.
  cbn [parseLoop]. by rewrite (switchCase_default arg _ st Hlabel).
Qed.

(** X3: [--fix-dry-run] is parsed exactly as [--fix]. *)
Theorem parseESLintOptions_dry_run_is_fix :
  forall pre post,
    pendingOption pre = None ->
    parseESLintOptions (pre ++ "--fix-dry-run" :: post)
    = parseESLintOptions (pre ++ "--fix" :: post).
Proof.
  intros pre post Hpre. unfold parseESLintOptions.
  destruct (parseLoop_app pre ("--fix-dry-run" :: post) Hpre initialState)
    as (st & Hst & ->).
  destruct (parseLoop_app pre ("--fix" :: post) Hpre initialState)
    as (st' & Hst' & ->).
  assert (st' = st) as -> by congruence.
  reflexivity.
Qed.

Lemma switchCase_dotted arg next st st' consumed :
  Forall (fun e => startsWith "." e = true) (st_extensions st) ->
  switchCase arg next st = Normal (st', consumed) ->
  Forall (fun e => startsWith "." e = true) (st_extensions st').
Proof.
  intros Hst Hs. destruct (String.eqb_spec arg "--ext") as [->|Hext].
  - destruct next as [|extArg]; [done|].
    injection Hs as <- _. cbn [setExtensions st_extensions].
    apply Forall_fmap, Forall_true. intros e. apply startsWith_dotted.
  - by rewrite (switchCase_extensions _ _ _ _ _ Hext Hs).
Qed.

Lemma parseLoop_dotted args :
  forall st st',
    Forall (fun e => startsWith "." e = true) (st_extensions st) ->
    parseLoop args st = Normal st' ->
    Forall (fun e => startsWith "." e = true) (st_extensions st').
Proof.
  induction args as [|arg rest IH IH'] using tokens_ind;
    intros st st' Hst; [by intros [= <-]|].
  cbn [parseLoop].
  destruct (switchCase arg _ st) as [[st1 consumed]|] eqn:Hs; [|done].
  apply switchCase_dotted in Hs; [|done].
  destruct consumed.
  - destruct rest as [|value rest']; [by intros [= <-]|].
    by apply (IH' value rest' eq_refl).
  - by apply IH.
Qed.

(** X4: whenever the parser returns, the extension list is not empty and
    each of its entries starts with a dot. *)
Theorem parseESLintOptions_extensions_dotted :
  forall args parsed,
    parseESLintOptions args = Normal parsed ->
    extensions parsed <> []
    /\ Forall (fun e => startsWith "." e = true) (extensions parsed).
Proof.
  intros args parsed. unfold parseESLintOptions.
  destruct (parseLoop args initialState) as [st|] eqn:Hloop; [|done].
  intros [= <-]. cbn [extensions].
  apply parseLoop_dotted in Hloop; [|by constructor].
  destruct (st_extensions st) as [|e es]; cbn.
  - split; [done|]. by repeat constructor.
  - by split.
Qed.
End ParserMore.

Lemma parseESLintOptions_ignores_token_witness :
  @parseESLintOptions noJson (["--fix"] ++ "src" :: ["--cache"])
  = @parseESLintOptions noJson (["--fix"] ++ ["--cache"]).
Proof.
  apply (@parseESLintOptions_ignores_token noJson ["--fix"] "src" ["--cache"]).
  - reflexivity.
  - left. reflexivity.
Defined.

Lemma parseESLintOptions_dry_run_is_fix_witness :
  @parseESLintOptions noJson (["src"] ++ "--fix-dry-run" :: [])
  = @parseESLintOptions noJson (["src"] ++ "--fix" :: []).
Proof.
  apply (@parseESLintOptions_dry_run_is_fix noJson ["src"] []). reflexivity.
Defined.

Lemma parseESLintOptions_extensions_dotted_witness :
  exists parsed,
    @parseESLintOptions noJson ["--ext"; "ts,,.vue"] = Normal parsed
    /\ extensions parsed = [".ts"; "."; ".vue"]
    /\ Forall (fun e => startsWith "." e = true) (extensions parsed).
Proof.
  eexists. split; [reflexivity|]. split; [reflexivity|].
  eapply (@parseESLintOptions_extensions_dotted noJson ["--ext"; "ts,,.vue"]).
  reflexivity.
Defined.

Lemma parseESLintOptions_raises_iff_witness :
  @parseESLintOptions noJson ["--fix"; "--rule"] = Throw typeError
  /\ exists parsed, @parseESLintOptions noJson ["--fix"; "-c"] = Normal parsed.
Proof.
  split.
  - destruct (@parseESLintOptions_raises_iff noJson ["--fix"; "--rule"])
      as [[_ Hraises] Herror].
    destruct Hraises as [e He]; [right; reflexivity|].
    rewrite He. f_equal. by apply Herror.
  - destruct (@parseESLintOptions noJson ["--fix"; "-c"]) as [parsed|e] eqn:Hp;
      [by eexists|].
    destruct (@parseESLintOptions_raises_iff noJson ["--fix"; "-c"])
      as [[Hpending _] _].
    destruct Hpending as [Hp'|Hp']; [by eexists|discriminate Hp'..].
Defined.

Section Threshold.
Context `{JsonParser}.




End Threshold.



(** ** Patterns and the classifier beyond the claims *)

Lemma patternsSpec_sublist args : patternsSpec args `sublist_of` args.
Proof.
  induction args as [|arg rest IH IH'] using tokens_ind; [done|].
  cbn [patternsSpec]. destruct (startsWith "-" arg).
  - destruct (has optionsWithValues arg); [|by apply sublist_cons].
    destruct rest as [|value rest']; [apply sublist_nil_l|].
    do 2 apply sublist_cons. by apply (IH' value rest').
  - by apply sublist_skip.
Qed.

Lemma patternsSpec_no_dash args :
  Forall (fun p => startsWith "-" p = false) (patternsSpec args).
Proof.
  induction args as [|arg rest IH IH'] using tokens_ind; [done|].
  cbn [patternsSpec]. destruct (startsWith "-" arg) eqn:Hdash.
  - destruct (has optionsWithValues arg); [|done].
    destruct rest as [|value rest']; [done|]. by apply (IH' value rest').
  - by constructor.
Qed.

(** X7: the patterns [extractPatterns] returns are tokens of the
    arguments, in their order, none with a leading dash; or they are the
    single current directory when no token qualifies. *)
Theorem extractPatterns_tokens :
  forall args,
    Forall (fun p => startsWith "-" p = false) (extractPatterns args)
    /\ (extractPatterns args = ["."]
        \/ (extractPatterns args `sublist_of` args
            /\ extractPatterns args <> [])).
Proof.
  intros args. unfold extractPatterns.
  rewrite (extractLoop_patternsSpec args []). cbn [app].
  pose proof (patternsSpec_sublist args) as Hsub.
  pose proof (patternsSpec_no_dash args) as Hdash.
  destruct (patternsSpec args) as [|p ps]; cbn.
  - split; [by repeat constructor|by left].
  - split; [done|]. by right.
Qed.

Lemma beforeEquals_dash arg :
  startsWith "-" arg = true -> startsWith "-" (beforeEquals arg) = true.
Proof.
  destruct arg as [|a arg]; [done|]. cbn [startsWith].
  destruct (Ascii.eqb_spec "-" a) as [<-|]; [reflexivity|discriminate].
Qed.

Lemma beforeEquals_includes arg : includes "=" (beforeEquals arg) = false.
Proof.
  induction arg as [|a arg IH]; [done|]. cbn [beforeEquals].
  destruct (Ascii.eqb a "=") eqn:Ea; [done|]. cbn [includes]. by rewrite Ea.
Qed.

(** X8: every name the classifier reports is the name of a token of the
    arguments, starts with a dash, holds no ['='] and lies outside both
    supported vocabularies. *)
Theorem findUnsupportedOptions_names :
  forall args,
    Forall
      (fun name =>
         (exists arg, (arg ∈ args) /\ name = beforeEquals arg)
         /\ startsWith "-" name = true
         /\ includes "=" name = false
         /\ (name ∉ SUPPORTED_FLAGS)
         /\ name ∉ SUPPORTED_OPTIONS_WITH_VALUES)
      (findUnsupportedOptions args).
Proof.
  intros args. unfold findUnsupportedOptions.
  rewrite unsupportedLoop_spec. cbn [app].
  induction args as [|arg rest IH IH'] using tokens_ind; [done|].
  assert (forall l : list string,
             Forall
               (fun name =>
                  (exists arg, (arg ∈ l) /\ name = beforeEquals arg)
                  /\ startsWith "-" name = true
                  /\ includes "=" name = false
                  /\ (name ∉ SUPPORTED_FLAGS)
                  /\ name ∉ SUPPORTED_OPTIONS_WITH_VALUES)
               (unsupportedSpec l) ->
             forall pre,
             Forall
               (fun name =>
                  (exists arg, (arg ∈ pre ++ l) /\ name = beforeEquals arg)
                  /\ startsWith "-" name = true
                  /\ includes "=" name = false
                  /\ (name ∉ SUPPORTED_FLAGS)
                  /\ name ∉ SUPPORTED_OPTIONS_WITH_VALUES)
               (unsupportedSpec l)) as Hweaken.
  { intros l Hl pre. eapply Forall_impl; [exact Hl|].
    intros name ((a & Ha & ->) & Hrest). split; [|done].
    exists a. split; [|done]. apply elem_of_app. by right. }
  cbn [unsupportedSpec].
  destruct (startsWith "-" arg) eqn:Hdash;
    [|by apply (Hweaken rest IH [arg])].
  destruct (has SUPPORTED_FLAGS (beforeEquals arg)) eqn:Hflag;
    [by apply (Hweaken rest IH [arg])|].
  destruct (has SUPPORTED_OPTIONS_WITH_VALUES (beforeEquals arg)) eqn:Hvalue.
  - destruct (includes "=" arg); [by apply (Hweaken rest IH [arg])|].
    destruct rest as [|value rest']; [done|].
    by apply (Hweaken rest' (IH' value rest' eq_refl) [arg; value]).
  - constructor.
    + split; [exists arg; split; [by left|done]|].
      split; [by apply beforeEquals_dash|].
      split; [apply beforeEquals_includes|].
      split; by apply has_false.
    + destruct rest as [|next rest']; [done|].
      destruct (startsWith "-" next); [by apply (Hweaken _ IH [arg])|].
      by apply (Hweaken rest' (IH' next rest' eq_refl) [arg; next]).
Qed.

Lemma unsupportedSpec_reportedSpec args :
  unsupportedSpec args = reportedSpec args.
Proof.
  induction args as [|arg rest IH IH'] using tokens_ind; [done|].
  cbn [unsupportedSpec reportedSpec].
  destruct (startsWith "-" arg); [|done].
  destruct (has SUPPORTED_FLAGS (beforeEquals arg)); [done|].
  destruct (has SUPPORTED_OPTIONS_WITH_VALUES (beforeEquals arg)).
  - destruct (includes "=" arg); [done|].
    destruct rest as [|value rest']; [done|]. by apply (IH' value rest').
  - f_equal. destruct rest as [|next rest']; [done|].
    destruct (startsWith "-" next) eqn:Hnext; [done|].
    cbn [reportedSpec]. rewrite Hnext. by apply (IH' next rest').
Qed.

(** X9: the look-ahead after an unsupported option never changes what
    the classifier returns: the result is the one of the description
    that reports every unsupported dash token it reads and lets only the
    supported options with a value take the following token. *)
Theorem findUnsupportedOptions_lookahead_free :
  forall args, findUnsupportedOptions args = reportedSpec args.
Proof.
  intros args. unfold findUnsupportedOptions.
  by rewrite unsupportedLoop_spec, unsupportedSpec_reportedSpec.
Qed.

(** X10: the classifier works token run by token run: where the first
    run does not end on a supported option still waiting for its value,
    the result for the whole is the result for the first run followed by
    the result for the rest. *)
Theorem findUnsupportedOptions_app :
  forall pre post,
    pendingOption pre = None ->
    findUnsupportedOptions (pre ++ post)
    = findUnsupportedOptions pre ++ findUnsupportedOptions post.
Proof.
  intros pre post Hpre. unfold findUnsupportedOptions.
  rewrite !unsupportedLoop_spec. cbn [app].
  by apply unsupportedSpec_app.
Qed.

(** X11: arguments made only of tokens without a dash and of supported
    option names (with or without ['=value']) are never reported, so the
    run is not diverted to the fallback by the classifier. *)
Theorem findUnsupportedOptions_supported :
  forall args,
    Forall (fun arg =>
              startsWith "-" arg = false
              \/ beforeEquals arg
                   ∈ SUPPORTED_FLAGS ∪ SUPPORTED_OPTIONS_WITH_VALUES) args ->
    findUnsupportedOptions args = [].
Proof.
  intros args Hargs. unfold findUnsupportedOptions.
  rewrite unsupportedLoop_spec, unsupportedSpec_reportedSpec. cbn [app].
  induction args as [|arg rest IH IH'] using tokens_ind; [done|].
  apply Forall_cons in Hargs as [Harg Hrest].
  cbn [reportedSpec]. destruct (startsWith "-" arg) eqn:Hdash; [|by apply IH].
  destruct Harg as [Harg|Harg]; [done|].
  destruct (has SUPPORTED_FLAGS (beforeEquals arg)) eqn:Hflag; [by apply IH|].
  apply elem_of_union in Harg as [Hin|Hin].
  { apply has_true in Hin. congruence. }
  apply has_true in Hin. rewrite Hin.
  destruct (includes "=" arg); [by apply IH|].
  destruct rest as [|value rest']; [done|].
  apply (IH' value rest' eq_refl). by apply Forall_cons in Hrest as [_ ?].
Qed.

Lemma findUnsupportedOptions_app_witness :
  findUnsupportedOptions (["--quiet"; "-c"; "--debug"] ++ ["--stats"; "src"])
  = findUnsupportedOptions ["--quiet"; "-c"; "--debug"]
      ++ findUnsupportedOptions ["--stats"; "src"].
Proof.
  apply (findUnsupportedOptions_app ["--quiet"; "-c"; "--debug"]).
  reflexivity.
Defined.

Lemma findUnsupportedOptions_supported_witness :
  findUnsupportedOptions ["src"; "--fix"; "--format=json"; "-c"; "a.js"] = [].
Proof.
  apply findUnsupportedOptions_supported.
  repeat constructor; first [by left | right; apply (bool_decide_unpack _); by vm_compute].
Defined.

(** ** The enhanced path and the fallback beyond the claims *)

Section Engine.
Context `{Host}.

(** The [try] block is its two halves in sequence. *)
Lemma runWithAPIBody_phases args tr :
  runWithAPIBody args tr
  = match discovery args tr with
    | (Normal (parsed, files), tr1) => afterDiscovery args parsed files tr1
    | (Throw e, tr1) => (Throw e, tr1)
    end.
Proof.
  unfold discovery, runWithAPIBody, afterDiscovery. unfold mbind, M_bind.
  destruct (lift (parseESLintOptions args) tr) as [[parsed'|e] tr2]; [|done].
  destruct (call _ _ tr2) as [[[]|e] tr3]; [|done].
  destruct (when _ _ tr3) as [[[]|e] tr4]; [|done].
  destruct (getFilesToLint _ _ tr4) as [[candidateFiles|e] tr5]; [|done].
  destruct (filterIgnored _ _ tr5) as [[files|e] tr6]; [|done].
  destruct (when _ _ tr6) as [[[]|e] tr7]; [|done].
  reflexivity.
Qed.

Lemma handler_run error tr :
  (when (truthy (processEnv !! "DEBUG"))
     (emit (ConsoleError
              ("[eslint-progress-bar] ESLint API error: " +:+ error))) ;;
   mret (@None RunResult)) tr
  = (Normal None,
     tr ++ if truthy (processEnv !! "DEBUG")
           then [ConsoleError
                   ("[eslint-progress-bar] ESLint API error: " +:+ error)]
           else []).
Proof.
  unfold when, emit, mbind, M_bind, mret, M_ret.
  destruct (truthy (processEnv !! "DEBUG")); by rewrite ?app_nil_r.
Qed.

Lemma runWithAPI_not_loaded args tr :
  importESLint tr = false ->
  runWithAPI args tr = (Normal None, tr ++ [ImportESLint]).
Proof.
  intros Hload. unfold runWithAPI, loadESLint, mbind, M_bind.
  by rewrite Hload.
Qed.

Lemma runWithAPI_returns args tr :
  exists result, fst (runWithAPI args tr) = Normal result.
Proof.
  destruct (importESLint tr) eqn:Hload.
  - rewrite (runWithAPI_loaded args tr Hload). unfold tryCatch.
    destruct (runWithAPIBody args _) as [[result|error] tr1];
      [by eexists|].
    rewrite handler_run. by eexists.
  - rewrite (runWithAPI_not_loaded args tr Hload). by eexists.
Qed.

(** X12: the enhanced path is a closed failure domain.  [runWithAPI]
    never raises; without the engine module it returns the sentinel after
    the import alone; and whatever is raised inside the [try] block turns
    into the sentinel, with a [console.error] only when DEBUG is set. *)
Theorem runWithAPI_never_raises :
  forall args tr,
    (exists result, fst (runWithAPI args tr) = Normal result)
    /\ (importESLint tr = false ->
        runWithAPI args tr = (Normal None, tr ++ [ImportESLint]))
    /\ (forall error tr1,
          importESLint tr = true ->
          runWithAPIBody args (tr ++ [ImportESLint]) = (Throw error, tr1) ->
          runWithAPI args tr
          = (Normal None,
             tr1 ++ if truthy (processEnv !! "DEBUG")
                    then [ConsoleError
                            ("[eslint-progress-bar] ESLint API error: "
                               +:+ error)]
                    else [])).
Proof.
  intros args tr.
  split; [apply runWithAPI_returns|].
  split; [apply runWithAPI_not_loaded|].
  intros error tr1 Hload Hbody.
  {
    rewrite (runWithAPI_loaded args tr Hload). unfold tryCatch.
    by rewrite Hbody, handler_run. }
Qed.

(** X13: arguments that cannot be parsed (a last [--ext] or [--rule]
    without value) make the enhanced path give up right after the import:
    no engine is constructed, no file is looked for. *)
Theorem runWithAPI_unparsable :
  forall args tr,
    importESLint tr = true ->
    (pendingOption args = Some "--ext" \/ pendingOption args = Some "--rule") ->
    runWithAPI args tr
    = (Normal None,
       tr ++ [ImportESLint]
          ++ if truthy (processEnv !! "DEBUG")
             then [ConsoleError
                     ("[eslint-progress-bar] ESLint API error: "
                        +:+ typeError)]
             else []).
Proof.
  intros args tr Hload Hpending.
  rewrite (runWithAPI_loaded args tr Hload). unfold tryCatch.
  unfold runWithAPIBody, parseESLintOptions.
  rewrite (parseLoop_raises args Hpending). unfold mbind at 1, M_bind at 1.
  unfold lift. rewrite handler_run. by rewrite <- app_assoc.
Qed.

(** X14: [runESLint] on arguments the classifier accepts.  It never
    raises; a result of the enhanced path is relayed and no child is
    spawned; the sentinel leads to the fallback on the unchanged
    arguments, whose result is relayed. *)
Theorem runESLint_dispatch :
  forall args tr,
    findUnsupportedOptions args = [] ->
    match runWithAPI args tr with
    | (Normal (Some result), tr1) =>
        runESLint args tr = (Normal (exitCode result), tr1 ++ relayed result)
    | (Normal None, tr1) =>
        let child := spawnResult (spawn ("eslint" :: args) tr1) in
        runESLint args tr
        = (Normal (exitCode child),
           tr1 ++ [Spawn "npx" ("eslint" :: args)] ++ relayed child)
    | (Throw _, _) => False
    end.
Proof.
  intros args tr Hnone. unfold runESLint. rewrite Hnone.
  cbn [List.length Nat.ltb Nat.leb]. unfold mbind, M_bind. cbn beta.
  destruct (runWithAPI_returns args tr) as [result Hresult].
  destruct (runWithAPI args tr) as [[[r|]|e] tr1]; cbn [fst] in Hresult.
  - apply relay_run.
  - cbn zeta. rewrite runWithSpawn_run, relay_run.
    by rewrite <- app_assoc.
  - discriminate.
Qed.

(** ** File discovery *)



(** X16: [getFilesToLint] never raises: it makes one globby call and
    returns its files, or no file at all when the call fails; with the
    patterns and extensions of the runner the glob list of that call is
    never empty. *)
Theorem getFilesToLint_degrades :
  forall patterns exts tr,
    getFilesToLint patterns exts tr
    = (Normal match globby (globPatterns patterns exts) tr with
              | Normal files => files
              | Throw _ => []
              end,
       tr ++ [Globby (globPatterns patterns exts)])
    /\ (forall args parsed,
          parseESLintOptions args = Normal parsed ->
          globPatterns (extractPatterns args) (extensions parsed) <> []).
Proof.
  intros patterns exts tr. split.
  - unfold getFilesToLint, tryCatch, call.
    by destruct (globby _ tr).
  - intros args parsed. unfold parseESLintOptions.
    destruct (parseLoop args initialState) as [st|]; [|done].
    intros [= <-]. cbn [extensions].
    assert (exists e es,
               (if Nat.ltb 0 (List.length (st_extensions st))
                then st_extensions st else DEFAULT_EXTENSIONS) = e :: es)
      as (e & es & ->).
    { destruct (st_extensions st) as [|e es]; cbn; by eexists _, _. }
    unfold extractPatterns.
    assert (exists p ps,
               (if Nat.ltb 0 (List.length (fst (extractLoop args false [])))
                then fst (extractLoop args false []) else ["."]) = p :: ps)
      as (p & ps & ->).
    { destruct (fst (extractLoop args false [])) as [|p ps]; cbn;
        by eexists _, _. }
    unfold globPatterns. cbn [flat_map].
    by destruct (includes "*" p || existsb _ (e :: es)).
Qed.

Lemma filterIgnored_pure (ignored : string -> bool) candidateFiles :
  (forall file tr, isPathIgnored file tr = Normal (ignored file)) ->
  forall files tr,
    filterIgnored candidateFiles files tr
    = (Normal (files ++ List.filter (fun file => negb (ignored file))
                          candidateFiles),
       tr ++ (IsPathIgnored <$> candidateFiles)).
Proof.
  intros Hpure. induction candidateFiles as [|file rest IH]; intros files tr.
  - cbn. by rewrite !app_nil_r.
  - cbn [filterIgnored]. unfold mbind, M_bind, call. rewrite Hpure, IH.
    cbn [List.filter fmap list_fmap].
    destruct (ignored file); cbn [negb]; by rewrite <- !app_assoc.
Qed.

Lemma filterIgnored_general candidateFiles :
  forall files tr,
  exists evs,
    snd (filterIgnored candidateFiles files tr) = tr ++ evs
    /\ ignoreChecks evs `prefix_of` candidateFiles
    /\ forall kept,
         fst (filterIgnored candidateFiles files tr) = Normal kept ->
         ignoreChecks evs = candidateFiles
         /\ exists added,
              kept = files ++ added /\ added `sublist_of` candidateFiles.
Proof.
  induction candidateFiles as [|file rest IH]; intros files tr.
  - exists []. cbn. rewrite app_nil_r. split; [done|]. split; [done|].
    intros kept [= <-]. split; [done|]. exists []. by rewrite app_nil_r.
  - cbn [filterIgnored]. unfold mbind, M_bind, call.
    destruct (isPathIgnored file tr) as [ignored|error].
    + destruct (IH (if negb ignored then files ++ [file] else files)
                  (tr ++ [IsPathIgnored file]))
        as (evs & Hevs & Hprefix & Hkept).
      exists (IsPathIgnored file :: evs).
      change (ignoreChecks (IsPathIgnored file :: evs))
        with (file :: ignoreChecks evs).
      split; [by rewrite Hevs, <- app_assoc|].
      split; [by apply prefix_cons|].
      intros kept Hrun. destruct (Hkept kept Hrun) as (-> & added & -> & Hsub).
      split; [done|]. destruct ignored; cbn [negb].
      * exists added. split; [done|]. by apply sublist_cons.
      * exists (file :: added). rewrite <- app_assoc. split; [done|].
        by apply sublist_skip.
    + exists [IsPathIgnored file]. split; [done|].
      split; [by exists rest|done].
Qed.

(** X17: the ignore filter asks the engine once per candidate, in
    order, and stops at the first check that raises; what it returns are
    candidates in their order; with an engine whose answer depends on the
    file alone it returns exactly the candidates that are not ignored. *)
Theorem filterIgnored_keeps :
  forall candidateFiles tr,
    (exists evs,
        snd (filterIgnored candidateFiles [] tr) = tr ++ evs
        /\ ignoreChecks evs `prefix_of` candidateFiles
        /\ forall kept,
             fst (filterIgnored candidateFiles [] tr) = Normal kept ->
             ignoreChecks evs = candidateFiles
             /\ kept `sublist_of` candidateFiles)
    /\ (forall ignored : string -> bool,
          (forall file tr', isPathIgnored file tr' = Normal (ignored file)) ->
          filterIgnored candidateFiles [] tr
          = (Normal (List.filter (fun file => negb (ignored file))
                       candidateFiles),
             tr ++ (IsPathIgnored <$> candidateFiles))).
Proof.
  intros candidateFiles tr. split.
  - destruct (filterIgnored_general candidateFiles [] tr)
      as (evs & Hevs & Hprefix & Hkept).
    exists evs. split; [done|]. split; [done|].
    intros kept Hrun. destruct (Hkept kept Hrun) as (Hall & added & -> & Hsub).
    by split.
  - intros ignored Hpure.
    by rewrite (filterIgnored_pure ignored candidateFiles Hpure).
Qed.

(** ** Aggregation *)

Lemma sumErrors_from results :
  forall start,
    fold_left (fun sum r => (sum + errorCount r)%Z) results start
    = (start + sumErrors results)%Z.
Proof.
  unfold sumErrors.
  induction results as [|r rest IH]; intros start; cbn [fold_left]; [lia|].
  rewrite (IH (start + errorCount r)%Z), (IH (0 + errorCount r)%Z). lia.
Qed.

Lemma sumWarnings_from results :
  forall start,
    fold_left (fun sum r => (sum + warningCount r)%Z) results start
    = (start + sumWarnings results)%Z.
Proof.
  unfold sumWarnings.
  induction results as [|r rest IH]; intros start; cbn [fold_left]; [lia|].
  rewrite (IH (start + warningCount r)%Z), (IH (0 + warningCount r)%Z). lia.
Qed.

Lemma sumErrors_app results later :
  sumErrors (results ++ later) = (sumErrors results + sumErrors later)%Z.
Proof.
  unfold sumErrors at 1. rewrite fold_left_app.
  fold (sumErrors results). apply sumErrors_from.
Qed.

Lemma sumWarnings_app results later :
  sumWarnings (results ++ later)
  = (sumWarnings results + sumWarnings later)%Z.
Proof.
  unfold sumWarnings at 1. rewrite fold_left_app.
  fold (sumWarnings results). apply sumWarnings_from.
Qed.

Lemma sumErrors_nonneg results :
  Forall (fun r => (0 <= errorCount r)%Z) results ->
  (0 <= sumErrors results)%Z
  /\ Forall (fun r => (errorCount r <= sumErrors results)%Z) results.
Proof.
  induction 1 as [|r rest Hr _ [IHsum IHeach]].
  - by split.
  - change (r :: rest) with ([r] ++ rest). rewrite sumErrors_app.
    change (sumErrors [r]) with (0 + errorCount r)%Z.
    split; [lia|]. constructor; [lia|].
    eapply Forall_impl; [exact IHeach|]. intros r'. cbn. lia.
Qed.

(** X18: the totals do not depend on how the files were batched: the
    counts of the concatenated batches are the sums of the counts of the
    batches.  With counts that are not negative, one result with an error
    anywhere makes the exit code 1 whatever the threshold. *)
Theorem exit_code_aggregates :
  (forall batches : list (list LintResult),
      sumErrors (concat batches)
      = foldr (fun batch total => (sumErrors batch + total)%Z) 0%Z batches
      /\ sumWarnings (concat batches)
         = foldr (fun batch total => (sumWarnings batch + total)%Z) 0%Z
             batches)
  /\ (forall results r maxWarnings,
        Forall (fun r => (0 <= errorCount r)%Z) results ->
        r ∈ results ->
        (0 < errorCount r)%Z ->
        calculateExitCode (sumErrors results) (sumWarnings results)
          maxWarnings = 1%Z).
Proof.
  split.
  - induction batches as [|batch rest [IHe IHw]]; [done|].
    cbn [concat foldr]. by rewrite sumErrors_app, sumWarnings_app, IHe, IHw.
  - intros results r maxWarnings Hnonneg Hin Hpos.
    destruct (sumErrors_nonneg results Hnonneg) as [_ Heach].
    rewrite Forall_forall in Heach. specialize (Heach r Hin).
    unfold calculateExitCode.
    by rewrite (proj2 (Z.ltb_lt 0 (sumErrors results))) by lia.
Qed.

(** ** The progress bar *)

(** X19: progress is shown exactly when the error stream is a terminal
    and each of the nine CI variables is unset or empty. *)
Theorem shouldShowProgress_iff :
  shouldShowProgress = true
  <-> stderrIsTTY = true
      /\ Forall (fun v => processEnv !! v = None
                          \/ processEnv !! v = Some EmptyString) ciVars.
Proof.
  unfold shouldShowProgress.
  destruct stderrIsTTY; cbn [negb]; [|by split; [|intros [? _]]].
  rewrite negb_true_iff. split.
  - intros Hnone. split; [done|]. apply Forall_forall. intros v Hv.
    destruct (processEnv !! v) as [value|] eqn:Hvalue; [|by left].
    right. f_equal.
    destruct (String.eqb_spec value EmptyString) as [->|Hne]; [done|].
    exfalso. apply not_true_iff_false in Hnone. apply Hnone.
    apply existsb_exists. exists v. split; [by apply list_elem_of_In|].
    rewrite Hvalue. cbn. by destruct (String.eqb_spec value EmptyString).
  - intros [_ Hall]. apply not_true_iff_false. intros Hex.
    apply existsb_exists in Hex as (v & Hv & Htruthy).
    rewrite Forall_forall in Hall.
    destruct (Hall v (proj2 (list_elem_of_In _ _) Hv)) as [Hnone|Hempty].
    + by rewrite Hnone in Htruthy.
    + by rewrite Hempty in Htruthy.
Qed.

Lemma createProgressBar_run tr :
  createProgressBar tr
  = (Normal (if shouldShowProgress then Bar false else NoBar),
     tr ++ if shouldShowProgress then [NewSingleBar] else []).
Proof.
  unfold createProgressBar.
  destruct shouldShowProgress; cbn; by rewrite ?app_nil_r.
Qed.

Lemma barStart_run total bar tr :
  barStart total bar tr
  = (Normal match bar with
            | NoBar => NoBar
            | Bar started => Bar (Nat.ltb 0 total || started)
            end,
     tr ++ match bar with
           | NoBar => []
           | Bar _ => if Nat.ltb 0 total then [BarStart total] else []
           end).
Proof.
  destruct bar as [|started]; cbn [barStart]; [by rewrite app_nil_r|].
  destruct (Nat.ltb 0 total); cbn; by rewrite ?app_nil_r.
Qed.

Lemma barStop_run bar tr :
  barStop bar tr
  = (Normal match bar with
            | NoBar => NoBar
            | Bar _ => Bar false
            end,
     tr ++ match bar with
           | Bar true => [BarStop]
           | _ => []
           end).
Proof.
  destruct bar as [|[]]; cbn; by rewrite ?app_nil_r.
Qed.

(** X20: however the object is used, the widget is driven in order: it
    is never started with a total of zero, an increment or a stop reaches
    it only while it is started, and the object made when progress is
    not shown never reaches it at all. *)
Theorem barCalls_wellDriven :
  forall calls bar tr,
  exists bar' evs,
    barCalls calls bar tr = (Normal bar', tr ++ evs)
    /\ wellDriven (isStarted bar) evs = true
    /\ Forall (fun ev => isWidget ev = true /\ ev <> BarStart 0) evs
    /\ (bar = NoBar -> evs = [] /\ bar' = NoBar).
Proof.
  induction calls as [|c later IH]; intros bar tr.
  - exists bar, []. cbn. by rewrite app_nil_r.
  - cbn [barCalls]. unfold mbind at 1, M_bind at 1.
    destruct c as [total|count|].
    + rewrite barStart_run.
      destruct (IH match bar with
                   | NoBar => NoBar
                   | Bar started => Bar (Nat.ltb 0 total || started)
                   end
                  (tr ++ match bar with
                         | NoBar => []
                         | Bar _ =>
                             if Nat.ltb 0 total then [BarStart total] else []
                         end))
        as (bar' & evs & -> & Hdriven & Hwidget & Hno).
      destruct bar as [|started].
      * destruct (Hno eq_refl) as [-> ->]. exists NoBar, [].
        by rewrite !app_nil_r.
      * destruct total as [|total]; cbn [Nat.ltb Nat.leb orb] in *.
        -- exists bar', evs. by rewrite app_nil_r.
        -- exists bar', (BarStart (S total) :: evs).
           rewrite <- app_assoc. split; [done|]. split; [done|].
           split; [|done]. by constructor.
    + unfold mbind, M_bind. cbn beta. rewrite barIncrement_run.
      unfold mret at 1, M_ret at 1.
      destruct (IH bar (tr ++ match bar with
                               | Bar true => [BarIncrement count]
                               | _ => []
                               end))
        as (bar' & evs & -> & Hdriven & Hwidget & Hno).
      destruct bar as [|[]].
      * destruct (Hno eq_refl) as [-> ->]. exists NoBar, [].
        by rewrite !app_nil_r.
      * exists bar', (BarIncrement count :: evs).
        rewrite <- app_assoc. split; [done|]. split; [done|].
        split; [|done]. by constructor.
      * exists bar', evs. by rewrite app_nil_r.
    + rewrite barStop_run.
      destruct (IH match bar with
                   | NoBar => NoBar
                   | Bar _ => Bar false
                   end
                  (tr ++ match bar with
                         | Bar true => [BarStop]
                         | _ => []
                         end))
        as (bar' & evs & -> & Hdriven & Hwidget & Hno).
      destruct bar as [|[]].
      * destruct (Hno eq_refl) as [-> ->]. exists NoBar, [].
        by rewrite !app_nil_r.
      * exists bar', (BarStop :: evs).
        rewrite <- app_assoc. split; [done|]. split; [done|].
        split; [|done]. by constructor.
      * exists bar', evs. by rewrite app_nil_r.
Qed.

End Engine.

(** ** The number of engine calls *)

Lemma chunksOf_length files :
  List.length (chunksOf files)
  = (List.length files + (BATCH_SIZE - 1)) / BATCH_SIZE.
Proof.
  funelim (chunksOf files); simp chunksOf; [done|].
  change (drop 19 rest) with (drop BATCH_SIZE (file :: rest)) in H.
  cbn [List.length]. rewrite H. unfold BATCH_SIZE.
  cbn [drop]. rewrite length_drop. cbn [Nat.sub].
  pose proof (Nat.div_mod_eq (List.length rest - 19 + 19) 20) as H1.
  pose proof (Nat.mod_upper_bound (List.length rest - 19 + 19) 20) as H2.
  pose proof (Nat.div_mod_eq (S (List.length rest) + 19) 20) as H3.
  pose proof (Nat.mod_upper_bound (S (List.length rest) + 19) 20) as H4.
  lia.
Qed.

Lemma chunksOf_full files :
  forall i chunk,
    chunksOf files !! i = Some chunk ->
    S i < List.length (chunksOf files) ->
    List.length chunk = BATCH_SIZE.
Proof.
  funelim (chunksOf files); simp chunksOf; intros i chunk; [done|].
  change (drop 19 rest) with (drop BATCH_SIZE (file :: rest)) in H.
  set (first := take BATCH_SIZE (file :: rest)).
  set (others := chunksOf (drop BATCH_SIZE (file :: rest))) in *.
  destruct i as [|i]; cbn.
  - intros [= <-] Hmore. subst first others.
    change (file :: take 19 rest) with (take BATCH_SIZE (file :: rest)).
    rewrite length_take.
    destruct (drop BATCH_SIZE (file :: rest)) as [|f fs] eqn:Hdrop.
    + simp chunksOf in Hmore. cbn in Hmore. lia.
    + apply (f_equal List.length) in Hdrop. rewrite length_drop in Hdrop.
      unfold BATCH_SIZE in *. cbn [List.length] in *. lia.
  - intros Hchunk Hmore. apply (H i chunk Hchunk). lia.
Qed.

(** ** The batched run as a whole *)

Section Batched.
Context `{Host}.

Lemma lintChunks_shape progressBar chunks :
  (forall batch tr, exists results, lintFiles batch tr = Normal results) ->
  forall allResults tr,
  exists results,
    List.length results = List.length chunks
    /\ lintChunks progressBar chunks allResults tr
       = (Normal (allResults ++ concat results),
          tr ++ batchEvents progressBar chunks results).
Proof.
  intros Hreturns.
  induction chunks as [|batch later IH]; intros allResults tr.
  - exists []. cbn. by rewrite !app_nil_r.
  - cbn [lintChunks]. unfold mbind, M_bind.
    rewrite lint_run. destruct (Hreturns batch tr) as [rs ->].
    rewrite barIncrement_run.
    destruct (IH (allResults ++ rs)
                ((tr ++ [LintFiles batch (Normal rs)])
                   ++ match progressBar with
                      | Bar true => [BarIncrement (List.length batch)]
                      | _ => []
                      end))
      as (results & Hlen & ->).
    exists (rs :: results). split; [cbn; by rewrite Hlen|].
    cbn [concat batchEvents]. by rewrite <- !app_assoc.
Qed.

Lemma lintedBatches_batchEvents progressBar chunks results :
  List.length results = List.length chunks ->
  lintedBatches (batchEvents progressBar chunks results) = chunks.
Proof.
  revert results.
  induction chunks as [|batch later IH]; intros [|rs results];
    cbn [List.length batchEvents]; try done.
  intros [= Hlen]. unfold lintedBatches in *.
  change (LintFiles batch (Normal rs) :: ?l) with ([LintFiles batch (Normal rs)] ++ l).
  rewrite !omap_app, (IH results Hlen). by destruct progressBar as [|[]].
Qed.

(** X21: with an engine that returns, the batch loop calls the lint
    operation once per started twenty of files: the number of calls is
    the file count divided by 20, rounded up, and every call but the
    last gets exactly 20 files. *)
Theorem batchLoop_call_count :
  forall files progressBar tr,
    (forall batch tr, exists results, lintFiles batch tr = Normal results) ->
    exists allResults evs,
      batchLoop files progressBar 0 [] tr = (Normal allResults, tr ++ evs)
      /\ List.length (lintedBatches evs)
         = (List.length files + 19) / 20
      /\ forall i batch,
           lintedBatches evs !! i = Some batch ->
           S i < List.length (lintedBatches evs) ->
           List.length batch = 20.
Proof.
  intros files progressBar tr Hreturns.
  destruct (lintChunks_shape progressBar (chunksOf files) Hreturns [] tr)
    as (results & Hlen & Hrun).
  eexists _, _. rewrite batchLoop_lintChunks.
  split; [exact Hrun|].
  rewrite (lintedBatches_batchEvents _ _ _ Hlen).
  split; [apply chunksOf_length|apply chunksOf_full].
Qed.


End Batched.

(** ** Silence *)

Section Silence.
Context `{Host}.

Lemma addsOnly_ret {A : Type} allowed (a : A) : addsOnly allowed (mret a).
Proof. intros tr. exists []. by rewrite app_nil_r. Qed.

Lemma addsOnly_lift {A : Type} allowed (c : Completion A) :
  addsOnly allowed (lift c).
Proof. intros tr. exists []. by rewrite app_nil_r. Qed.

Lemma addsOnly_ext {A : Type} allowed (m m' : M A) :
  (forall tr, m tr = m' tr) -> addsOnly allowed m' -> addsOnly allowed m.
Proof. intros Heq Hm tr. rewrite Heq. apply Hm. Qed.

Lemma addsOnly_bind {A B : Type} allowed (m : M A) (k : A -> M B) :
  addsOnly allowed m -> (forall a, addsOnly allowed (k a)) ->
  addsOnly allowed (m ≫= k).
Proof.
  intros Hm Hk tr. unfold mbind, M_bind.
  destruct (Hm tr) as (evs & Hevs & Hq).
  destruct (m tr) as [[a|e] tr1]; cbn [snd] in Hevs; subst tr1.
  - destruct (Hk a (tr ++ evs)) as (evs' & -> & Hq').
    exists (evs ++ evs'). split; [by rewrite app_assoc|].
    by apply Forall_app.
  - by exists evs.
Qed.

Lemma addsOnly_tryCatch {A : Type} allowed (m : M A) handler :
  addsOnly allowed m -> (forall e, addsOnly allowed (handler e)) ->
  addsOnly allowed (tryCatch m handler).
Proof.
  intros Hm Hh tr. unfold tryCatch.
  destruct (Hm tr) as (evs & Hevs & Hq).
  destruct (m tr) as [[a|e] tr1]; cbn [snd] in Hevs; subst tr1.
  - by exists evs.
  - destruct (Hh e (tr ++ evs)) as (evs' & -> & Hq').
    exists (evs ++ evs'). split; [by rewrite app_assoc|].
    by apply Forall_app.
Qed.

Lemma addsOnly_step {A : Type} allowed ev (f : list Event -> Completion A) :
  allowed ev = true -> addsOnly allowed (fun tr => (f tr, tr ++ [ev])).
Proof. intros Hq tr. exists [ev]. split; [done|]. by constructor. Qed.

Lemma addsOnly_lintChunks allowed chunks :
  (forall paths outcome, allowed (LintFiles paths outcome) = true) ->
  forall allResults, addsOnly allowed (lintChunks NoBar chunks allResults).
Proof.
  intros Hlint. induction chunks as [|batch later IH]; intros allResults.
  - apply addsOnly_ret.
  - cbn [lintChunks]. apply addsOnly_bind.
    + intros tr. rewrite lint_run. eexists [_]. split; [done|].
      by constructor.
    + intros results. apply addsOnly_bind; [apply addsOnly_ret|].
      intros _. apply IH.
Qed.

Lemma addsOnly_filterIgnored candidateFiles :
  forall files, addsOnly offTerminal (filterIgnored candidateFiles files).
Proof.
  induction candidateFiles as [|file rest IH]; intros files.
  - apply addsOnly_ret.
  - cbn [filterIgnored]. apply addsOnly_bind.
    + by apply (addsOnly_step offTerminal).
    + intros ignored. apply IH.
Qed.

(** X23: when progress is not shown (no terminal, or CI) and DEBUG is
    not set, the enhanced path puts nothing on the error stream: no
    status text, no widget, no summary line, no [console.error]. *)
Theorem runWithAPI_silent :
  forall args,
    shouldShowProgress = false ->
    truthy (processEnv !! "DEBUG") = false ->
    addsOnly offTerminal (runWithAPI args).
Proof.
  intros args Hshow Hdebug. unfold runWithAPI. apply addsOnly_bind.
  { by apply (addsOnly_step offTerminal ImportESLint). }
  intros loaded. destruct loaded; cbn [negb]; [|apply addsOnly_ret].
  apply addsOnly_tryCatch.
  - apply (addsOnly_ext _ _
             (discovery args
                ≫= fun d => afterDiscovery args (fst d) (snd d))).
    { intros tr. rewrite runWithAPIBody_phases. unfold mbind, M_bind.
      by destruct (discovery args tr) as [[[parsed files]|e] tr1]. }
    apply addsOnly_bind.
    + unfold discovery, getFilesToLint, when. rewrite Hshow.
      repeat first
        [ apply addsOnly_ret
        | apply addsOnly_lift
        | apply addsOnly_filterIgnored
        | apply addsOnly_bind; [|intros ?]
        | apply addsOnly_tryCatch; [|intros ?]
        | by apply (addsOnly_step offTerminal) ].
    + intros [parsed files]. cbn [fst snd]. unfold afterDiscovery.
      destruct (Nat.eqb (List.length files) 0).
      * apply addsOnly_bind.
        -- intros tr. rewrite lint_run. eexists [_]. split; [done|].
           by constructor.
        -- intros results. unfold finish.
           repeat first
             [ apply addsOnly_ret
             | apply addsOnly_bind; [|intros ?]
             | by apply (addsOnly_step offTerminal) ].
      * apply (addsOnly_ext _ _
                 (startTime ← (fun tr => (Normal (dateNow tr), tr ++ [DateNow]));
                  allResults ← lintChunks NoBar (chunksOf files) [];
                  when (truthyFlag (fix_ (eslintOptions parsed)))
                    (call (OutputFixes allResults) (outputFixes allResults)) ;;
                  finish allResults (format parsed) (maxWarnings parsed))).
        { intros tr. unfold mbind, M_bind. cbn beta.
          rewrite createProgressBar_run, barStart_run, Hshow.
          cbn [app]. rewrite !app_nil_r.
          rewrite batchLoop_lintChunks. change (drop 0 files) with files.
          destruct (lintChunks NoBar (chunksOf files) [] (tr ++ [DateNow]))
            as [[allResults|e] tr1]; [|done].
          rewrite barStop_run. unfold mret at 1, M_ret at 1.
          by rewrite app_nil_r. }
        apply addsOnly_bind; [by apply (addsOnly_step offTerminal)|].
        intros startTime. apply addsOnly_bind; [by apply addsOnly_lintChunks|].
        intros allResults. unfold finish, when.
        destruct (truthyFlag (fix_ (eslintOptions parsed)));
          repeat first
            [ apply addsOnly_ret
            | apply addsOnly_bind; [|intros ?]
            | by apply (addsOnly_step offTerminal) ].
  - intros error. unfold when. rewrite Hdebug.
    apply addsOnly_bind; [apply addsOnly_ret|]. intros _. apply addsOnly_ret.
Qed.
End Silence.

(** ** The command line *)

Lemma arrayIncludes_elem x (array : list string) :
  arrayIncludes x array = true <-> x ∈ array.
Proof.
  unfold arrayIncludes. rewrite existsb_exists. split.
  - intros (y & Hin & Heq). apply String.eqb_eq in Heq as ->.
    by apply list_elem_of_In.
  - intros Hin. exists x. split; [by apply list_elem_of_In|].
    apply String.eqb_refl.
Qed.

Lemma arrayIncludes_not_elem x (array : list string) :
  arrayIncludes x array = false <-> x ∉ array.
Proof.
  rewrite <- arrayIncludes_elem. by destruct (arrayIncludes x array).
Qed.

Section CommandLine.
Context `{Host}.

Lemma runESLint_returns args tr :
  exists code, fst (runESLint args tr) = Normal code.
Proof.
  unfold runESLint.
  destruct (findUnsupportedOptions args) as [|name names];
    cbn [List.length Nat.ltb Nat.leb]; unfold mbind, M_bind, emit; cbn beta.
  - destruct (runWithAPI_returns args tr) as [result Hresult].
    destruct (runWithAPI args tr) as [[[r|]|e] tr1]; cbn [fst] in Hresult;
      [| |done].
    + rewrite relay_run. by eexists.
    + rewrite runWithSpawn_run, relay_run. by eexists.
  - rewrite runWithSpawn_run, relay_run. by eexists.
Qed.

(** X24: a help flag anywhere among the arguments prints the usage text
    and ends with code 0; failing that, a version flag anywhere prints
    the version line and ends with code 0; no argument at all prints the
    usage text.  In all three cases that one write to the standard output
    is everything that happens: nothing is analysed. *)
Theorem main_informational :
  forall (VERSION : string) args tr,
    ("--help" ∈ args \/ "-h" ∈ args ->
     main VERSION args tr
     = (Normal 0%Z, tr ++ [StdoutWrite (usageText +:+ LF)]))
    /\ ("--help" ∉ args -> "-h" ∉ args ->
        "--version" ∈ args \/ "-v" ∈ args ->
        main VERSION args tr
        = (Normal 0%Z,
           tr ++ [StdoutWrite (("eslint-progress-bar v" +:+ VERSION) +:+ LF)]))
    /\ main VERSION [] tr
       = (Normal 0%Z, tr ++ [StdoutWrite (usageText +:+ LF)]).
Proof.
  intros VERSION args tr. split; [|split].
  - intros Hhelp. unfold main.
    assert (arrayIncludes "--help" args || arrayIncludes "-h" args = true)
      as ->; [|done].
    apply orb_true_iff.
    destruct Hhelp as [Hin|Hin]; [left|right]; by apply arrayIncludes_elem.
  - intros Hhelp Hh Hversion. unfold main.
    rewrite (proj2 (arrayIncludes_not_elem _ _) Hhelp),
      (proj2 (arrayIncludes_not_elem _ _) Hh). cbn [orb].
    assert (arrayIncludes "--version" args || arrayIncludes "-v" args = true)
      as ->; [|done].
    apply orb_true_iff.
    destruct Hversion as [Hin|Hin]; [left|right]; by apply arrayIncludes_elem.
  - reflexivity.
Qed.

(** X25: with at least one argument and neither a help nor a version
    flag among them, [main] is [runESLint] on the same arguments: same
    events, same exit code; the [catch] of [main] never runs, since
    [runESLint] never raises. *)
Theorem main_forwards :
  forall (VERSION : string) args tr,
    args <> [] ->
    "--help" ∉ args -> "-h" ∉ args -> "--version" ∉ args -> "-v" ∉ args ->
    main VERSION args tr = runESLint args tr
    /\ exists code, fst (main VERSION args tr) = Normal code.
Proof.
  intros VERSION args tr Hargs Hhelp Hh Hversion Hv.
  assert (main VERSION args tr = runESLint args tr) as Hmain.
  { unfold main.
    rewrite (proj2 (arrayIncludes_not_elem _ _) Hhelp),
      (proj2 (arrayIncludes_not_elem _ _) Hh),
      (proj2 (arrayIncludes_not_elem _ _) Hversion),
      (proj2 (arrayIncludes_not_elem _ _) Hv). cbn [orb].
    destruct args as [|arg rest]; [done|]. cbn [List.length Nat.eqb].
    unfold tryCatch. destruct (runESLint_returns (arg :: rest) tr) as [code Hc].
    by destruct (runESLint (arg :: rest) tr) as [[c|e] tr1]. }
  split; [exact Hmain|]. rewrite Hmain. apply runESLint_returns.
Qed.
End CommandLine.

(** ** Instances of the further properties *)

Lemma runWithAPI_never_raises_witness :
  @runWithAPI noJson (hostWith true ∅ false []) ["src"] []
  = (Normal None, [] ++ [ImportESLint])
  /\ @runWithAPI noJson exampleHost ["--ext"] []
     = (Normal None, [ImportESLint] ++ []).
Proof.
  destruct (@runWithAPI_never_raises noJson (hostWith true ∅ false [])
              ["src"] []) as (_ & Hmissing & _).
  destruct (@runWithAPI_never_raises noJson exampleHost ["--ext"] [])
    as (_ & _ & Hraised).
  split.
  - apply Hmissing. reflexivity.
  - apply (Hraised typeError); reflexivity.
Defined.

Lemma runWithAPI_unparsable_witness :
  @runWithAPI noJson exampleHost ["src"; "--rule"] []
  = (Normal None, [] ++ [ImportESLint] ++ []).
Proof.
  apply (@runWithAPI_unparsable noJson exampleHost ["src"; "--rule"] []).
  - reflexivity.
  - right. reflexivity.
Defined.

Lemma runESLint_dispatch_witness :
  fst (@runESLint noJson (hostWith true ∅ false []) ["src"] []) = Normal 2%Z
  /\ fst (@runESLint noJson exampleHost ["src"] []) = Normal 0%Z.
Proof.
  split.
  - pose proof (@runESLint_dispatch noJson (hostWith true ∅ false [])
                  ["src"] [] eq_refl) as Hrun.
    cbv zeta in Hrun.
    change (@runWithAPI noJson (hostWith true ∅ false []) ["src"] [])
      with (@Normal (option RunResult) None, [@ImportESLint noJson]) in Hrun.
    cbv beta iota in Hrun. by rewrite Hrun.
  - pose proof (@runESLint_dispatch noJson exampleHost ["src"] [] eq_refl)
      as Hrun.
    destruct (@runWithAPI noJson exampleHost ["src"] [])
      as [[[result|]|e] tr1] eqn:Hapi; [|discriminate Hapi..].
    rewrite Hrun. injection Hapi as <- _. reflexivity.
Defined.

Lemma getFilesToLint_degrades_witness :
  @globPatterns (extractPatterns ["src"; "--ext"; "ts"]) [".ts"]
  = ["src/**/*.ts"]
  /\ @globPatterns (extractPatterns ["src"; "--ext"; "ts"]) [".ts"] <> [].
Proof.
  split; [reflexivity|].
  destruct (@getFilesToLint_degrades noJson exampleHost [] [] [])
    as [_ Hglobs].
  apply (Hglobs ["src"; "--ext"; "ts"]
           {| eslintOptions := @noOptions noJson; maxWarnings := None;
              format := Defined "stylish"; extensions := [".ts"] |}).
  reflexivity.
Defined.

Lemma filterIgnored_keeps_witness :
  @filterIgnored noJson exampleHost ["a.js"; "b.js"] [] []
  = (Normal ["a.js"; "b.js"], [IsPathIgnored "a.js"; IsPathIgnored "b.js"]).
Proof.
  destruct (@filterIgnored_keeps noJson exampleHost ["a.js"; "b.js"] [])
    as [_ Hpure].
  apply (Hpure (fun _ => false)). reflexivity.
Defined.

Lemma exit_code_aggregates_witness :
  calculateExitCode
    (sumErrors [ {| filePath := "a.js"; errorCount := 0; warningCount := 3 |};
                 {| filePath := "b.js"; errorCount := 2; warningCount := 0 |} ])
    (sumWarnings [ {| filePath := "a.js"; errorCount := 0; warningCount := 3 |};
                   {| filePath := "b.js"; errorCount := 2; warningCount := 0 |} ])
    (Some (Int 10)) = 1%Z.
Proof.
  destruct exit_code_aggregates as [_ Hone].
  apply (Hone _ {| filePath := "b.js"; errorCount := 2; warningCount := 0 |}).
  - repeat constructor; cbn; lia.
  - right. left.
  - cbn. lia.
Defined.

Lemma shouldShowProgress_iff_witness :
  @shouldShowProgress noJson
    (hostWith true {[ "CI" := EmptyString ]} true []) = true
  /\ @shouldShowProgress noJson
       (hostWith true {[ "GITHUB_ACTIONS" := "true" ]} true []) = false.
Proof.
  split.
  - apply (@shouldShowProgress_iff noJson
             (hostWith true {[ "CI" := EmptyString ]} true [])).
    split; [reflexivity|]. repeat constructor; by vm_compute; auto.
  - destruct (@shouldShowProgress noJson
                (hostWith true {[ "GITHUB_ACTIONS" := "true" ]} true []))
      eqn:Hshow; [|reflexivity].
    apply (@shouldShowProgress_iff noJson
             (hostWith true {[ "GITHUB_ACTIONS" := "true" ]} true []))
      in Hshow as [_ Hall].
    exfalso. rewrite Forall_forall in Hall.
    destruct (Hall "GITHUB_ACTIONS") as [Hnone|Hempty];
      [apply (bool_decide_unpack _); by vm_compute
      |vm_compute in Hnone; discriminate
      |vm_compute in Hempty; discriminate].
Defined.

Lemma barCalls_wellDriven_witness :
  exists bar' evs,
    @barCalls noJson
      [CallIncrement 1; CallStart 0; CallStop; CallStart 3; CallIncrement 2;
       CallStop; CallStop] (Bar false) []
    = (Normal bar', [] ++ evs)
    /\ evs = [BarStart 3; BarIncrement 2; BarStop].
Proof.
  destruct (@barCalls_wellDriven noJson
              [CallIncrement 1; CallStart 0; CallStop; CallStart 3;
               CallIncrement 2; CallStop; CallStop] (Bar false) [])
    as (bar' & evs & Hrun & _).
  exists bar', evs. split; [exact Hrun|].
  vm_compute in Hrun. by injection Hrun as _ <-.
Defined.

Lemma batchLoop_call_count_witness :
  exists allResults evs,
    @batchLoop noJson exampleHost (replicate 45 "a.js") NoBar 0 [] []
    = (Normal allResults, [] ++ evs)
    /\ List.length (@lintedBatches noJson evs) = 3.
Proof.
  destruct (@batchLoop_call_count noJson exampleHost
              (replicate 45 "a.js") NoBar [])
    as (allResults & evs & Hrun & Hcount & _).
  - intros batch tr. eexists. reflexivity.
  - exists allResults, evs. split; [exact Hrun|]. rewrite Hcount.
    reflexivity.
Defined.


Lemma runWithAPI_silent_witness :
  @addsOnly noJson _ (@offTerminal noJson)
    (@runWithAPI noJson (hostWith false ∅ true ["a.js"]) ["src"]).
Proof.
  apply (@runWithAPI_silent noJson (hostWith false ∅ true ["a.js"]) ["src"]);
    reflexivity.
Defined.

Lemma main_informational_witness :
  @main noJson exampleHost "1.2.3" ["src"; "--rule"; "-h"] []
  = (Normal 0%Z, [] ++ [StdoutWrite (usageText +:+ LF)])
  /\ @main noJson exampleHost "1.2.3" ["-v"; "src"] []
     = (Normal 0%Z,
        [] ++ [StdoutWrite (("eslint-progress-bar v" +:+ "1.2.3") +:+ LF)]).
Proof.
  destruct (@main_informational noJson exampleHost "1.2.3"
              ["src"; "--rule"; "-h"] []) as (Hhelp & _ & _).
  destruct (@main_informational noJson exampleHost "1.2.3" ["-v"; "src"] [])
    as (_ & Hversion & _).
  split.
  - apply Hhelp. right. apply (bool_decide_unpack _). by vm_compute.
  - apply Hversion;
      [apply (bool_decide_unpack _); by vm_compute
      |apply (bool_decide_unpack _); by vm_compute
      |right; apply (bool_decide_unpack _); by vm_compute].
Defined.

Lemma main_forwards_witness :
  @main noJson exampleHost "1.2.3" ["src"] []
  = @runESLint noJson exampleHost ["src"] [].
Proof.
  apply (@main_forwards noJson exampleHost "1.2.3" ["src"] []);
    [discriminate|apply (bool_decide_unpack _); by vm_compute..].
Defined.

(** ** The three readers of the arguments agree *)

Lemma optionsWithValues_no_equals opt :
  opt ∈ optionsWithValues -> includes "=" opt = false.
Proof.
  unfold optionsWithValues. rewrite elem_of_list_to_set.
  intros Hin.
  repeat (apply elem_of_cons in Hin as [->|Hin]; [reflexivity|]).
  inversion Hin.
Qed.

Lemma supported_flag_no_value opt :
  opt ∈ SUPPORTED_FLAGS -> opt ∉ optionsWithValues.
Proof.
  unfold SUPPORTED_FLAGS. rewrite elem_of_list_to_set.
  intros Hin.
  repeat (apply elem_of_cons in Hin as [->|Hin];
          [apply (bool_decide_unpack _); vm_compute; exact I|]).
  inversion Hin.
Qed.

Lemma supported_value_known opt :
  opt ∈ SUPPORTED_OPTIONS_WITH_VALUES -> opt ∈ optionsWithValues.
Proof.
  unfold SUPPORTED_OPTIONS_WITH_VALUES. rewrite elem_of_list_to_set.
  intros Hin.
  repeat (apply elem_of_cons in Hin as [->|Hin];
          [apply (bool_decide_unpack _); vm_compute; exact I|]).
  inversion Hin.
Qed.

(** What the pattern extractor and the parser make of a dash token whose
    name is supported. *)
Lemma supported_token arg :
  startsWith "-" arg = true ->
  beforeEquals arg ∈ SUPPORTED_FLAGS ∪ SUPPORTED_OPTIONS_WITH_VALUES ->
  has optionsWithValues arg = has SUPPORTED_OPTIONS_WITH_VALUES arg
  /\ (has SUPPORTED_OPTIONS_WITH_VALUES arg = true
      <-> has SUPPORTED_FLAGS (beforeEquals arg) = false
          /\ includes "=" arg = false).
Proof.
  intros Hdash Hname. destruct (includes "=" arg) eqn:Heq.
  - assert (has optionsWithValues arg = false) as ->.
    { apply has_false. intros Hin.
      apply optionsWithValues_no_equals in Hin. congruence. }
    assert (has SUPPORTED_OPTIONS_WITH_VALUES arg = false) as ->.
    { apply has_false. intros Hin.
      apply supported_value_shape in Hin as (_ & ? & _). congruence. }
    split; [done|]. split; [done|by intros [_ ?]].
  - rewrite (beforeEquals_no_equals arg Heq) in *.
    apply elem_of_union in Hname as [Hflag|Hvalue].
    + destruct (supported_flag_shape arg Hflag) as (_ & _ & ->).
      rewrite (proj2 (has_false _ _) (supported_flag_no_value arg Hflag)).
      rewrite (proj2 (has_true _ _) Hflag).
      split; [done|]. split; [done|by intros [? _]].
    + destruct (supported_value_shape arg Hvalue) as (_ & _ & ->).
      rewrite (proj2 (has_true _ _) (supported_value_known arg Hvalue)).
      rewrite (proj2 (has_true _ _) Hvalue).
      split; [reflexivity|]. split; [intros _; by split|reflexivity].
Qed.

Lemma collected_readTokens args :
  reportedSpec args = [] ->
  patternsSpec args
  = List.filter (fun arg => negb (startsWith "-" arg)) (readTokens args).
Proof.
  induction args as [|arg rest IH IH'] using tokens_ind; [done|].
  cbn [reportedSpec patternsSpec readTokens List.filter].
  destruct (startsWith "-" arg) eqn:Hdash; cbn [negb].
  - intros Hnone.
    assert (beforeEquals arg ∈ SUPPORTED_FLAGS ∪ SUPPORTED_OPTIONS_WITH_VALUES)
      as Hname.
    { destruct (has SUPPORTED_FLAGS (beforeEquals arg)) eqn:Hf.
      - apply elem_of_union. left. by apply has_true.
      - destruct (has SUPPORTED_OPTIONS_WITH_VALUES (beforeEquals arg)) eqn:Hv;
          [|done].
        apply elem_of_union. right. by apply has_true. }
    destruct (supported_token arg Hdash Hname) as [-> Hiff].
    destruct (has SUPPORTED_OPTIONS_WITH_VALUES arg) eqn:Hv.
    + destruct (proj1 Hiff eq_refl) as [Hf He]. rewrite Hf, He in Hnone.
      rewrite (beforeEquals_no_equals arg He) in Hnone.
      rewrite Hv in Hnone.
      destruct rest as [|value rest']; [done|].
      by apply (IH' value rest').
    + apply IH.
      destruct (has SUPPORTED_FLAGS (beforeEquals arg)) eqn:Hf;
        [exact Hnone|].
      destruct (has SUPPORTED_OPTIONS_WITH_VALUES (beforeEquals arg)) eqn:Hn;
        [|discriminate Hnone].
      destruct (includes "=" arg) eqn:He; [exact Hnone|].
      discriminate (proj2 Hiff (conj eq_refl eq_refl)).
  - intros Hnone.
    assert (has SUPPORTED_OPTIONS_WITH_VALUES arg = false) as ->.
    { apply has_false. intros Hin.
      apply supported_value_shape in Hin as (? & _). congruence. }
    f_equal. by apply IH.
Qed.


Lemma reportedSpec_supported arg rest :
  startsWith "-" arg = true ->
  reportedSpec (arg :: rest) = [] ->
  beforeEquals arg ∈ SUPPORTED_FLAGS ∪ SUPPORTED_OPTIONS_WITH_VALUES.
Proof.
  intros Hdash. cbn [reportedSpec]. rewrite Hdash. cbn zeta.
  destruct (has SUPPORTED_FLAGS (beforeEquals arg)) eqn:Hf.
  - intros _. apply elem_of_union. left. by apply has_true.
  - destruct (has SUPPORTED_OPTIONS_WITH_VALUES (beforeEquals arg)) eqn:Hv;
      [|done].
    intros _. apply elem_of_union. right. by apply has_true.
Qed.

(** After any run of tokens of accepted arguments the loop of
    [extractPatterns] owes a value exactly when the parser does. *)
Lemma cursors_agree pre :
  forall post,
    reportedSpec (pre ++ post) = [] ->
    owesValue pre
    = match pendingOption pre with Some _ => true | None => false end.
Proof.
  unfold owesValue.
  induction pre as [|arg rest IH IH'] using tokens_ind; intros post; [done|].
  rewrite <- app_comm_cons. intros Hnone.
  cbn [extractLoop pendingOption].
  destruct (startsWith "-" arg) eqn:Hdash.
  - pose proof (reportedSpec_supported arg _ Hdash Hnone) as Hname.
    destruct (supported_token arg Hdash Hname) as [-> Hiff].
    cbn [reportedSpec] in Hnone. rewrite Hdash in Hnone. cbn zeta in Hnone.
    destruct (has SUPPORTED_OPTIONS_WITH_VALUES arg) eqn:Hv.
    + destruct (proj1 Hiff eq_refl) as [Hf He]. rewrite Hf, He in Hnone.
      rewrite (beforeEquals_no_equals arg He), Hv in Hnone.
      destruct rest as [|value rest']; [done|].
      cbn [extractLoop]. rewrite <- app_comm_cons in Hnone.
      by apply (IH' value rest' eq_refl post).
    + apply (IH post).
      destruct (has SUPPORTED_FLAGS (beforeEquals arg)) eqn:Hf;
        [exact Hnone|].
      destruct (has SUPPORTED_OPTIONS_WITH_VALUES (beforeEquals arg)) eqn:Hn;
        [|discriminate Hnone].
      destruct (includes "=" arg) eqn:He; [exact Hnone|].
      discriminate (proj2 Hiff (conj eq_refl eq_refl)).
  - assert (has SUPPORTED_OPTIONS_WITH_VALUES arg = false) as ->.
    { apply has_false. intros Hin.
      apply supported_value_shape in Hin as (? & _). congruence. }
    rewrite extractLoop_acc. cbn [snd]. apply (IH post).
    cbn [reportedSpec] in Hnone. by rewrite Hdash in Hnone.
Qed.

(** X26: on arguments the classifier accepts, the pattern extractor and
    the parser agree on what is an option value.  After every run of
    leading tokens the loop of [extractPatterns] owes a value exactly when
    the parser does, and the patterns collected are exactly the tokens
    without a dash that the parser reads at an option position, in
    order. *)
Theorem extractPatterns_agrees_with_parser :
  forall args,
    findUnsupportedOptions args = [] ->
    (forall pre post,
        args = pre ++ post ->
        owesValue pre = true <-> pendingOption pre <> None)
    /\ collected args
       = List.filter (fun arg => negb (startsWith "-" arg)) (readTokens args).
Proof.
  intros args. unfold findUnsupportedOptions.
  rewrite unsupportedLoop_spec, unsupportedSpec_reportedSpec. cbn [app].
  intros Hnone. split.
  - intros pre post ->. rewrite (cursors_agree pre post Hnone).
    by destruct (pendingOption pre).
  - unfold collected. rewrite extractLoop_patternsSpec. cbn [app].
    by apply collected_readTokens.
Qed.

Lemma extractPatterns_agrees_with_parser_witness :
  let args := ["src"; "-c"; "a.js"; "--fix"; "--format=json"; "lib"] in
  (owesValue ["src"; "-c"] = true <-> pendingOption ["src"; "-c"] <> None)
  /\ collected args
     = List.filter (fun arg => negb (startsWith "-" arg)) (readTokens args).
Proof.
  destruct (extractPatterns_agrees_with_parser
              ["src"; "-c"; "a.js"; "--fix"; "--format=json"; "lib"])
    as [Hcursor Hpatterns]; [reflexivity|].
  split; [|exact Hpatterns].
  by apply (Hcursor ["src"; "-c"] ["a.js"; "--fix"; "--format=json"; "lib"]).
Defined.

(** ** What the enhanced path returns *)

Section Results.
Context `{Host}.





End Results.

